(** * osu-dreamer: piecewise cubic Bezier fitting ([signal/fit_bezier.py])

    A shallow embedding of [osu_dreamer/signal/fit_bezier.py].  The program
    computes on numpy [float64] arrays, so scalars are the kernel's binary64
    floats ([PrimFloat]): division by zero, NaN and the comparisons behave
    as they do in the program.  An ["L,2"] array is a list of pairs, an
    ["L,"] array a list of floats.  Sums are taken in index order.  The
    tolerance [max_err] is a Python float, and [max_err ** 2] is Python's
    float power, which can raise. *)

From Stdlib Require Import Floats List ZArith Bool Lia PeanoNat.
Import ListNotations.

Local Open Scope float_scope.

(** ** Exceptions and results *)

Inductive exn : Type :=
| IndexError
| TypeError
| ValueError
| OverflowError.

(** The outcome of a call: a value, a raised exception, or (for the
    recursive driver only) an exhausted recursion budget. *)
Inductive result (A : Type) : Type :=
| Ok (a : A)
| Raise (e : exn)
| OutOfFuel.

Arguments Ok {A} a.
Arguments Raise {A} e.
Arguments OutOfFuel {A}.

Definition bind {A B : Type} (r : result A) (k : A -> result B) : result B :=
  match r with
  | Ok a => k a
  | Raise e => Raise e
  | OutOfFuel => OutOfFuel
  end.

Notation "x <- r ;; k" := (bind r (fun x => k))
  (at level 61, r at next level, right associativity).

(** ** Arrays *)

Definition vec2 : Type := (float * float)%type.

(** A curve is a ["4,2"] array: four control points. *)
Definition curve : Type := list vec2.

(** The numpy operations the program uses. *)
Module np.

Definition add (a b : vec2) : vec2 := (fst a + fst b, snd a + snd b).
Definition sub (a b : vec2) : vec2 := (fst a - fst b, snd a - snd b).
Definition neg (a : vec2) : vec2 := (- fst a, - snd a).
(** [v * s] and [v / s] for an array [v] and a scalar [s]. *)
Definition mul (v : vec2) (s : float) : vec2 := (fst v * s, snd v * s).
Definition div (v : vec2) (s : float) : vec2 := (fst v / s, snd v / s).
(** [s * v] for a scalar [s] and an array [v]. *)
Definition scale (s : float) (v : vec2) : vec2 := (s * fst v, s * snd v).

(** [(a * b).sum(-1)] on one row; [np.dot] on two ["2,"] arrays. *)
Definition dot (a b : vec2) : float := fst a * fst b + snd a * snd b.

(** [np.linalg.norm] of one row. *)
Definition norm (v : vec2) : float := sqrt (dot v v).

(** [np.cumsum]. *)
Fixpoint cumsum_from (acc : float) (l : list float) : list float :=
  match l with
  | [] => []
  | x :: l' => (acc + x) :: cumsum_from (acc + x) l'
  end.

Definition cumsum (l : list float) : list float :=
  match l with
  | [] => []
  | x :: l' => x :: cumsum_from x l'
  end.

(** [a.argmax()] on float64: the first maximum, where a NaN counts as
    maximal.  The scan keeps the running maximum [mp] at index [best];
    element [x] at index [i] replaces it when [not (x <= mp)], and the
    scan stops at the first NaN. *)
Fixpoint argmax_scan (mp : float) (best i : nat) (l : list float) : nat :=
  match l with
  | [] => best
  | x :: l' =>
      if x <=? mp then argmax_scan mp best (S i) l'
      else if is_nan x then i
      else argmax_scan x i (S i) l'
  end.

Definition argmax (l : list float) : result nat :=
  match l with
  | [] => Raise ValueError
  | x :: l' => Ok (if is_nan x then O else argmax_scan x O 1%nat l')
  end.

(** [np.einsum('np,n->p', vecs, w)]. *)
Definition einsum_np_n (vecs : list vec2) (w : list float) : vec2 :=
  fold_left (fun acc vw => add acc (mul (fst vw) (snd vw)))
            (combine vecs w) (0, 0).

(** [np.arange(lo, hi)] on integers. *)
Definition arange (lo hi : Z) : list Z :=
  map (fun k => (lo + Z.of_nat k)%Z) (seq 0 (Z.to_nat (hi - lo))).

(** [np.finfo(float).eps]. *)
Definition eps : float := 0x1p-52.

End np.

(** Python indexing [a[i]] with a possibly negative [i]. *)
Definition getitem {A : Type} (a : list A) (i : Z) : result A :=
  let n := Z.of_nat (length a) in
  let j := if (i <? 0)%Z then (i + n)%Z else i in
  if ((j <? 0) || (n <=? j))%Z then Raise IndexError
  else match nth_error a (Z.to_nat j) with
       | Some x => Ok x
       | None => Raise IndexError
       end.

(** ** Python's float power

    [max_err ** 2] on a Python float is CPython's [float_pow].  It settles
    NaN, the infinities, zero and a base of magnitude 1 itself, and hands
    any other base to the C library's [pow]; an infinite result of that
    call is the range error that Python turns into [OverflowError].  The
    library's [pow(x, 2.0)] is not specified to the last bit (it is not
    always the rounded product [x * x]), so the library is a parameter:
    [pow_two x] stands for its [pow(x, 2.0)]. *)
Class Libm : Type := { pow_two : float -> float }.

Definition float_pow_2 {L : Libm} (v : float) : result float :=
  if is_nan v then Ok v
  else if is_infinity v then Ok (abs v)
  else if v =? 0 then Ok 0
  else if abs v =? 1 then Ok 1
  else
    let ix := pow_two (abs v) in
    if is_infinity ix then Raise OverflowError else Ok ix.

(** A library whose [pow(x, 2.0)] is the correctly rounded square, as
    IEEE 754 recommends.  Every library agrees with it where the square
    is exact (0.5, 3, a power of two) and where it overflows. *)
Definition rounded_pow : Libm := {| pow_two := fun x => x * x |}.

(** ** The [bezier] package *)

Module bezier.

(** Modelled from the spec: [bezier.Curve.from_nodes(nodes.T)
    .evaluate_multi(t).T] belongs to the third-party package [bezier]
    and is not part of the repository.  It evaluates the Bezier curve
    with the given control points in the Bernstein basis: (1-t)^3,
    3(1-t)^2 t, 3(1-t) t^2, t^3 for four nodes, and the analogous
    lower-degree bases for three and two nodes.  The program builds no
    curve of another degree. *)
Definition evaluate (nodes : list vec2) (t : float) : vec2 :=
  let s := 1 - t in
  match nodes with
  | [a] => a
  | [a; b] => np.add (np.scale s a) (np.scale t b)
  | [a; b; c] =>
      np.add (np.add (np.scale (s * s) a) (np.scale (2 * s * t) b))
             (np.scale (t * t) c)
  | [a; b; c; d] =>
      np.add (np.add (np.add (np.scale (s * s * s) a)
                             (np.scale (3 * s * s * t) b))
                     (np.scale (3 * s * t * t) c))
             (np.scale (t * t * t) d)
  | _ => (nan, nan)
  end.

Definition evaluate_multi (nodes : list vec2) (ts : list float) : list vec2 :=
  map (evaluate nodes) ts.

End bezier.

(** ** [fit_bezier.py] *)

(** [p[1:] - p[:-1]]. *)
Fixpoint diffs (p : list vec2) : list vec2 :=
  match p with
  | a :: (b :: _) as p' => np.sub b a :: diffs p'
  | _ => []
  end.

(** [hodo(p) = p.shape[0] * (p[1:] - p[:-1])]. *)
Definition hodo (p : list vec2) : list vec2 :=
  map (np.scale (of_uint63 (Uint63.of_Z (Z.of_nat (length p))))) (diffs p).

Definition q (p : curve) (t : list float) : list vec2 :=
  bezier.evaluate_multi p t.

Definition qprime (p : curve) (t : list float) : list vec2 :=
  bezier.evaluate_multi (hodo p) t.

Definition qprimeprime (p : curve) (t : list float) : list vec2 :=
  bezier.evaluate_multi (hodo (hodo p)) t.

Definition normalize (v : vec2) : vec2 :=
  let magnitude := sqrt (np.dot v v) in
  if magnitude <? np.eps then v else np.div v magnitude.

(** The geometric-decay weights of the tangent estimate: with [x = 2] and
    [n = min(10, len(points) - 2)],
    [(float(x) ** -np.arange(1, n+1)) / (1 - float(x) ** -n) * (x - 1)]. *)
Definition pow2 (k : Z) : float := Z.ldexp 1 k.

Definition weights (len_points : nat) : list float :=
  let n := Z.min 10 (Z.of_nat len_points - 2) in
  map (fun k => pow2 (- k) / (1 - pow2 (- n)) * 1) (np.arange 1 (n + 1)).

(** [points[2:2+len(weights)] - points[1]]. *)
Definition l_vecs (points : list vec2) (n : nat) : result (list vec2) :=
  p1 <- getitem points 1 ;;
  Ok (map (fun p => np.sub p p1) (firstn n (skipn 2 points))).

(** [points[-3:-3-len(weights):-1] - points[-2]]. *)
Definition r_vecs (points : list vec2) (n : nat) : result (list vec2) :=
  p2 <- getitem points (-2) ;;
  Ok (map (fun p => np.sub p p2) (firstn n (skipn 2 (rev points)))).


(** [a[i] += v] on the rows of an ["N,2"] array. *)
Fixpoint iadd_row (a : list vec2) (i : nat) (v : vec2) : list vec2 :=
  match a, i with
  | [], _ => []
  | x :: a', O => np.add x v :: a'
  | x :: a', S i' => x :: iadd_row a' i' v
  end.

#[local] Set Warnings "-inexact-float".

(** The thresholds of [generate_bezier], as the binary64 values nearest to
    the decimal literals [1e-5] and [1e-6]. *)
Definition det_threshold : float := 1e-5.
Definition alpha_threshold : float := 1e-6.

#[local] Set Warnings "inexact-float".

(** The matrices [C] and [X] of [generate_bezier]:
    [A = (3 * (1-u) * u * np.array([1-u, u])).T[..., None]
         * np.array([left_tangent, right_tangent])],
    [C = np.einsum('lix,ljx->ij', A, A)] and
    [X = np.einsum('lix,lx->i', A, points - q(bez_curve, u))]. *)
Record normal_equations : Type := {
  C00 : float; C01 : float; C10 : float; C11 : float;
  X0 : float; X1 : float
}.

Definition least_squares (bez_curve : curve) (points : list vec2)
    (u : list float) (left_tangent right_tangent : vec2) : normal_equations :=
  let A := map (fun ul =>
              let c := 3 * (1 - ul) * ul in
              (np.scale (c * (1 - ul)) left_tangent,
               np.scale (c * ul) right_tangent)) u in
  let R := map (fun pq => np.sub (fst pq) (snd pq))
               (combine points (q bez_curve u)) in
  {| C00 := fold_left (fun acc a => acc + np.dot (fst a) (fst a)) A 0;
     C01 := fold_left (fun acc a => acc + np.dot (fst a) (snd a)) A 0;
     C10 := fold_left (fun acc a => acc + np.dot (snd a) (fst a)) A 0;
     C11 := fold_left (fun acc a => acc + np.dot (snd a) (snd a)) A 0;
     X0 := fold_left (fun acc ar => acc + np.dot (fst (fst ar)) (snd ar))
                     (combine A R) 0;
     X1 := fold_left (fun acc ar => acc + np.dot (snd (fst ar)) (snd ar))
                     (combine A R) 0 |}.

(** The determinants of [C] and [X], and the alpha values derived from them. *)
Definition det_C0_C1 (n : normal_equations) : float :=
  C00 n * C11 n - C10 n * C01 n.
Definition det_C0_X (n : normal_equations) : float :=
  C00 n * X1 n - C10 n * X0 n.
Definition det_X_C1 (n : normal_equations) : float :=
  X0 n * C11 n - X1 n * C01 n.

Definition alpha_l (n : normal_equations) : float :=
  if abs (det_C0_C1 n) <? det_threshold then 0 else det_X_C1 n / det_C0_C1 n.
Definition alpha_r (n : normal_equations) : float :=
  if abs (det_C0_C1 n) <? det_threshold then 0 else det_C0_X n / det_C0_C1 n.

(** [np.linalg.norm(points[0] - points[-1])]. *)
Definition seg_len (points : list vec2) : float :=
  np.norm (np.sub (hd (0, 0) points) (last points (0, 0))).

(** [bez_curve = np.array([points[0], points[0], points[-1], points[-1]])]. *)
Definition chord_curve (points : list vec2) : curve :=
  [hd (0, 0) points; hd (0, 0) points; last points (0, 0); last points (0, 0)].

(** The matrices of a call of [generate_bezier]. *)
Definition fit_equations (points : list vec2) (u : list float)
    (left_tangent right_tangent : vec2) : normal_equations :=
  least_squares (chord_curve points) points u left_tangent right_tangent.

(** [generate_bezier(points, u, left_tangent, right_tangent)], for
    [points: "L,2"] and [u: "L,"] of one length [L].  The driver calls it
    with at least three points; on no point at all [points[0]] raises,
    which [generate_bezier_obj] below accounts for. *)
Definition generate_bezier (points : list vec2) (u : list float)
    (left_tangent right_tangent : vec2) : curve :=
  let bez_curve := chord_curve points in
  let n := fit_equations points u left_tangent right_tangent in
  let epsilon := alpha_threshold * seg_len points in
  if (alpha_l n <? epsilon) || (alpha_r n <? epsilon) then
    (* fall back on standard (probably inaccurate) formula *)
    iadd_row (iadd_row bez_curve 1 (np.mul left_tangent (seg_len points / 3)))
             2 (np.mul right_tangent (seg_len points / 3))
  else
    iadd_row (iadd_row bez_curve 1 (np.mul left_tangent (alpha_l n)))
             2 (np.mul right_tangent (alpha_r n)).

(** The numerator and denominator of the Newton step at one point. *)
Definition newton_num (bez : curve) (p : vec2) (ui : float) : float :=
  let d := np.sub (bezier.evaluate bez ui) p in
  let qp := bezier.evaluate (hodo bez) ui in
  np.dot d qp.

Definition newton_den (bez : curve) (p : vec2) (ui : float) : float :=
  let d := np.sub (bezier.evaluate bez ui) p in
  let qp := bezier.evaluate (hodo bez) ui in
  let qpp := bezier.evaluate (hodo (hodo bez)) ui in
  (fst qp * fst qp + fst d * fst qpp) + (snd qp * snd qp + snd d * snd qpp).

(** One row of [u + np.where(den == 0, 0, num / den)]. *)
Definition newton_step (bez : curve) (p : vec2) (ui : float) : float :=
  ui + (if newton_den bez p ui =? 0 then 0
        else newton_num bez p ui / newton_den bez p ui).

Definition newton_raphson_root_find (bez : curve) (points : list vec2)
    (u : list float) : list float :=
  map (fun pu => newton_step bez (fst pu) (snd pu)) (combine points u).

(** The parameterization by normalized cumulative chord length:
    [u = [0]; u[1:] = np.cumsum(norms); u /= u[-1]].  With fewer than two
    points [u] stays the Python list [[0]], and [u /= 0] raises. *)
Definition chord_length_parameterize (points : list vec2)
    : result (list float) :=
  let c := np.cumsum (map np.norm (diffs points)) in
  match c with
  | [] => Raise TypeError
  | _ => Ok (map (fun x => x / last c 0) (0 :: c))
  end.

(** [errs = ((q(bez_curve, u) - points) ** 2).sum(-1)]. *)
Definition sq_errors (bez_curve : curve) (points : list vec2) (u : list float)
    : list float :=
  map (fun qp => let d := np.sub (fst qp) (snd qp) in np.dot d d)
      (combine (q bez_curve u) points).

(** What one iteration of the refinement loop computes from its
    parameterization: the fitted curve, [split_point = errs.argmax()] and
    [err = errs[split_point]]. *)
Definition fit_iteration (points : list vec2) (left_tangent right_tangent : vec2)
    (u : list float) : result (curve * nat * float) :=
  let bez_curve := generate_bezier points u left_tangent right_tangent in
  let errs := sq_errors bez_curve points u in
  split_point <- np.argmax errs ;;
  err <- getitem errs (Z.of_nat split_point) ;;
  Ok (bez_curve, split_point, err).

(** How the refinement loop of [fit_bezier] ends: [return [bez_curve]], or
    the fall through to the subdivision with the last [split_point]. *)
Inductive loop_exit : Type :=
| Converged (bez_curve : curve)
| Failed (split_point : nat).

(** The loop [for _ in range(32)], from an iteration whose parameterization
    [u] is already computed; [remaining] counts the iterations left after
    this one.  The second component of the result is the number of
    iterations performed; every iteration but the first starts with one
    call of [newton_raphson_root_find].  [max_err ** 2] is evaluated in
    every iteration that fails the test [err < max_err], and what it
    raises leaves the loop and the function. *)
Fixpoint refine {L : Libm} (remaining : nat) (points : list vec2)
    (max_err : float) (left_tangent right_tangent : vec2) (u : list float)
    : result (loop_exit * nat) :=
  m <- fit_iteration points left_tangent right_tangent u ;;
  let '(bez_curve, split_point, err) := m in
  if err <? max_err then Ok (Converged bez_curve, 1%nat)
  else
    squared <- float_pow_2 max_err ;;
    if squared <? err then Ok (Failed split_point, 1%nat)
    else
      match remaining with
      | O => Ok (Failed split_point, 1%nat)
      | S remaining' =>
          r <- refine remaining' points max_err left_tangent right_tangent
                 (newton_raphson_root_find bez_curve points u) ;;
          Ok (fst r, S (snd r))
      end.

(** The general case of [fit_bezier] up to the end of its loop. *)
Definition fit_loop {L : Libm} (points : list vec2) (max_err : float)
    (left_tangent right_tangent : vec2) : result (loop_exit * nat) :=
  u <- chord_length_parameterize points ;;
  refine 31 points max_err left_tangent right_tangent u.

(** The tangents of a call: the caller's, or the weighted estimates. *)
Definition tangents (points : list vec2) (left_tangent right_tangent : option vec2)
    : result (vec2 * vec2) :=
  let w := weights (length points) in
  lt <- match left_tangent with
        | Some t => Ok t
        | None =>
            v <- l_vecs points (length w) ;;
            Ok (normalize (np.einsum_np_n v w))
        end ;;
  rt <- match right_tangent with
        | Some t => Ok t
        | None =>
            v <- r_vecs points (length w) ;;
            Ok (normalize (np.einsum_np_n v w))
        end ;;
  Ok (lt, rt).

(** The heuristic for a region of two points. *)
Definition two_point_curve (points : list vec2) (left_tangent right_tangent : vec2)
    : result curve :=
  p0 <- getitem points 0 ;;
  p1 <- getitem points 1 ;;
  let dist := np.norm (np.sub p0 p1) / 3 in
  Ok [p0; np.add p0 (np.mul left_tangent dist);
      np.add p1 (np.mul right_tangent dist); p1].

(** The subdivision at [split_point]; [fit] is the recursive call. *)
Definition subdivide
    (fit : list vec2 -> option vec2 -> option vec2 -> result (list curve))
    (points : list vec2) (left_tangent right_tangent : vec2)
    (split_point : nat) : result (list curve) :=
  a <- getitem points (Z.of_nat split_point - 1) ;;
  b <- getitem points (Z.of_nat split_point + 1) ;;
  let center_tangent := normalize (np.sub a b) in
  l <- fit (firstn (S split_point) points)
         (Some left_tangent) (Some center_tangent) ;;
  r <- fit (skipn split_point points)
         (Some (np.neg center_tangent)) (Some right_tangent) ;;
  Ok (l ++ r).

(** [fit_bezier(points, max_err, left_tangent, right_tangent)].  [fuel]
    bounds the depth of the recursion. *)
Fixpoint fit_bezier {L : Libm} (fuel : nat) (points : list vec2)
    (max_err : float) (left_tangent right_tangent : option vec2)
    : result (list curve) :=
  match fuel with
  | O => OutOfFuel
  | S fuel' =>
      t <- tangents points left_tangent right_tangent ;;
      if (length points =? 2)%nat then
        c <- two_point_curve points (fst t) (snd t) ;;
        Ok [c]
      else
        r <- fit_loop points max_err (fst t) (snd t) ;;
        match fst r with
        | Converged bez_curve => Ok [bez_curve]
        | Failed split_point =>
            subdivide (fun p l r => fit_bezier fuel' p max_err l r)
                      points (fst t) (snd t) split_point
        end
  end.

(** The parameterization the loop holds in its iteration number [k]
    (counted from 0), when no earlier iteration left the loop: the chord
    lengths [u0], reparameterized [k] times against the curve fitted in the
    iteration before. *)
Definition reparameterize (points : list vec2) (left_tangent right_tangent : vec2)
    (u : list float) : list float :=
  newton_raphson_root_find
    (generate_bezier points u left_tangent right_tangent) points u.

Definition parameterization (k : nat) (points : list vec2)
    (left_tangent right_tangent : vec2) (u0 : list float) : list float :=
  Nat.iter k (reparameterize points left_tangent right_tangent) u0.

(** An iteration neither returns nor breaks nor raises: [err < max_err]
    is false, [max_err ** 2] has a value, and [err > max_err ** 2] is
    false. *)
Definition keeps_iterating {L : Libm} (points : list vec2) (max_err : float)
    (left_tangent right_tangent : vec2) (u : list float) : bool :=
  match fit_iteration points left_tangent right_tangent u with
  | Ok (_, _, err) =>
      negb (err <? max_err) &&
      match float_pow_2 max_err with
      | Ok squared => negb (squared <? err)
      | _ => false
      end
  | _ => false
  end.

(** The end points of a curve are points of the range. *)
Definition ends_on (points : list vec2) (c : curve) : Prop :=
  exists p0 p1 p2 p3, c = [p0; p1; p2; p3] /\ In p0 points /\ In p3 points.

(** ** Rounding in the specification of binary64

    What [n] right shifts of the specification ([SpecFloat.shr_1]) keep
    of an integer [M]: the quotient by 2^n and, in the round bit, whether
    the remainder reaches the half. *)
Definition shr_inv (n M : Z) (r : SpecFloat.shr_record) : Prop :=
  (0 <= SpecFloat.shr_m r /\
   SpecFloat.shr_m r * 2 ^ n <= M < (SpecFloat.shr_m r + 1) * 2 ^ n /\
   (SpecFloat.shr_r r = true ->
    1 <= n /\ SpecFloat.shr_m r * 2 ^ n + 2 ^ (n - 1) <= M))%Z.

(** A number of the specification that is not infinite, and one that is
    not negative. *)
Definition SFfinite (x : SpecFloat.spec_float) : Prop :=
  SpecFloat.SFeqb x x = true /\
  SpecFloat.SFeqb (SpecFloat.SFabs x) (SpecFloat.S754_infinity false) = false.

Definition SFnumber_not_neg (x : SpecFloat.spec_float) : Prop :=
  SpecFloat.SFeqb x x = true /\
  SpecFloat.SFltb x (SpecFloat.S754_zero false) = false.

(** ** The specification's wording, for comparison with the code *)

Module Spec.

(** "New u_i = u_i - numerator/denominator, unless denominator is exactly
    zero, in which case u_i is left unchanged." *)
Definition newton_step (bez : curve) (p : vec2) (ui : float) : float :=
  if newton_den bez p ui =? 0 then ui
  else ui - newton_num bez p ui / newton_den bez p ui.

Definition newton_raphson_root_find (bez : curve) (points : list vec2)
    (u : list float) : list float :=
  map (fun pu => newton_step bez (fst pu) (snd pu)) (combine points u).

(** "3 hodograph control points = 3 (P_{i+1} - P_i)" for the cubic, and
    "2 further hodograph points" of the quadratic: the differences of the
    control points, scaled by the degree of the curve. *)
Definition hodograph (p : list vec2) : list vec2 :=
  map (np.scale (of_uint63 (Uint63.of_Z (Z.of_nat (length p) - 1))))
      (diffs p).

Definition qprime (p : curve) (t : list float) : list vec2 :=
  bezier.evaluate_multi (hodograph p) t.

Definition qprimeprime (p : curve) (t : list float) : list vec2 :=
  bezier.evaluate_multi (hodograph (hodograph p)) t.

End Spec.

(** ** Arrays as objects

    [generate_bezier] updates an array in place, so for its effects the
    arrays are objects in a store: a reference is an index, an allocation
    appends.  A numpy expression builds a new array; only the arrays a
    function receives, returns or updates are kept in the store. *)

Inductive ndarray : Type :=
| Arr1 (a : list float)
| Arr2 (a : list vec2).

Definition heap : Type := list ndarray.
Definition ref : Type := nat.

Definition M (A : Type) : Type := heap -> result (A * heap).

Definition ret {A : Type} (a : A) : M A := fun h => Ok (a, h).

Definition bindM {A B : Type} (m : M A) (k : A -> M B) : M B :=
  fun h => match m h with
           | Ok (a, h') => k a h'
           | Raise e => Raise e
           | OutOfFuel => OutOfFuel
           end.

Definition lift {A : Type} (r : result A) : M A :=
  fun h => match r with
           | Ok a => Ok (a, h)
           | Raise e => Raise e
           | OutOfFuel => OutOfFuel
           end.

Notation "x <~ m ;; k" := (bindM m (fun x => k))
  (at level 61, m at next level, right associativity).

(** [np.array(rows)]: a new object. *)
Definition alloc (a : ndarray) : M ref :=
  fun h => Ok (length h, h ++ [a]).

Definition load1 (r : ref) : M (list float) :=
  fun h => match nth_error h r with
           | Some (Arr1 a) => Ok (a, h)
           | _ => Raise TypeError
           end.

Definition load2 (r : ref) : M (list vec2) :=
  fun h => match nth_error h r with
           | Some (Arr2 a) => Ok (a, h)
           | _ => Raise TypeError
           end.

(** A ["2,"] array read as a vector. *)
Definition load_vec (r : ref) : M vec2 :=
  a <~ load1 r ;;
  match a with
  | [x; y] => ret (x, y)
  | _ => lift (Raise ValueError)
  end.

Fixpoint update (h : heap) (r : ref) (a : ndarray) : heap :=
  match h, r with
  | [], _ => []
  | _ :: h', O => a :: h'
  | x :: h', S r' => x :: update h' r' a
  end.

(** [a[i] += v] on the object [r]: the rows are written in place. *)
Definition iadd_row_at (r : ref) (i : nat) (v : vec2) : M unit :=
  a <~ load2 r ;;
  fun h => Ok (tt, update h r (Arr2 (iadd_row a i v))).

Definition generate_bezier_obj (points u left_tangent right_tangent : ref)
    : M ref :=
  P <~ load2 points ;;
  first <~ lift (getitem P 0) ;;
  last <~ lift (getitem P (-1)) ;;
  bez_curve <~ alloc (Arr2 [first; first; last; last]) ;;
  U <~ load1 u ;;
  lt <~ load_vec left_tangent ;;
  rt <~ load_vec right_tangent ;;
  B <~ load2 bez_curve ;;
  let n := least_squares B P U lt rt in
  let epsilon := alpha_threshold * seg_len P in
  _ <~ (if (alpha_l n <? epsilon) || (alpha_r n <? epsilon) then
          _ <~ iadd_row_at bez_curve 1 (np.mul lt (seg_len P / 3)) ;;
          iadd_row_at bez_curve 2 (np.mul rt (seg_len P / 3))
        else
          _ <~ iadd_row_at bez_curve 1 (np.mul lt (alpha_l n)) ;;
          iadd_row_at bez_curve 2 (np.mul rt (alpha_r n))) ;;
  ret bez_curve.

Definition newton_raphson_root_find_obj (bez points u : ref) : M ref :=
  B <~ load2 bez ;;
  P <~ load2 points ;;
  U <~ load1 u ;;
  alloc (Arr1 (newton_raphson_root_find B P U)).

(** ** What [fit_bezier] returns *)

(** Every squared distance of [errs] is below the tolerance. *)
Definition all_below (max_err : float) (errs : list float) : Prop :=
  Forall (fun e => (e <? max_err) = true) errs.

(** [c] is a least-squares fit of the range [pts] within [max_err]: for
    some parameterization with one parameter per point, the curve is the
    one [generate_bezier] builds and every point is closer to the curve
    at its parameter than the tolerance allows. *)
Definition fits_within (max_err : float) (pts : list vec2) (c : curve) : Prop :=
  exists lt rt u,
    length u = length pts /\
    c = generate_bezier pts u lt rt /\
    all_below max_err (sq_errors c pts u).

(** [c] is the two-point heuristic on the range [pts]. *)
Definition two_point_fit (pts : list vec2) (c : curve) : Prop :=
  exists lt rt, length pts = 2%nat /\ two_point_curve pts lt rt = Ok c.

(** [pts] is a run of consecutive points of [points]. *)
Definition contiguous (pts points : list vec2) : Prop :=
  exists before after, points = before ++ pts ++ after.

(** The curves lead from [a] to [b]: the first starts at [a], each next
    one starts where the one before ends, the last ends at [b]. *)
Fixpoint chained (a b : vec2) (curves : list curve) : Prop :=
  match curves with
  | [] => a = b
  | c :: curves' =>
      exists p1 p2 e, c = [a; p1; p2; e] /\ chained e b curves'
  end.

(** [(p == q).all()] on two ["2,"] arrays. *)
Definition coincide (p q : vec2) : bool :=
  (fst p =? fst q) && (snd p =? snd q).

(** Both coordinates are numbers, and not infinite. *)
Definition finite_vec (v : vec2) : bool :=
  is_finite (fst v) && is_finite (snd v).

(** The inner control points of [c] lie along [lt] from its first and
    along [rt] from its last control point: each is the end point displaced
    by the tangent times an offset that is not negative (NaN is not
    excluded). *)
Definition along (lt rt : vec2) (c : curve) : Prop :=
  exists p0 p3 a b,
    c = [p0; np.add p0 (np.mul lt a); np.add p3 (np.mul rt b); p3] /\
    (a <? 0) = false /\ (b <? 0) = false.

(** The curves leave along [lt], arrive along [rt], and at every joint the
    curve after it leaves along the opposite of the tangent along which
    the curve before it arrives. *)
Fixpoint smooth (lt rt : vec2) (curves : list curve) : Prop :=
  match curves with
  | [] => False
  | [c] => along lt rt c
  | c :: curves' =>
      exists ct, along lt ct c /\ smooth (np.neg ct) rt curves'
  end.

(** ** NaN parameters and chords of length zero *)

(** Every entry of [u] is NaN. *)
Definition all_nan (u : list float) : Prop :=
  Forall (fun x => is_nan x = true) u.

(** Every chord [points[i+1] - points[i]] has length zero. *)
Definition zero_chords (points : list vec2) : Prop :=
  Forall (fun d => np.norm d = 0) (diffs points).

(** ** [model/model.py]: padding for inference *)

Definition VALID_PAD : nat := 1024.

(** [F.pad(x, (left, right), mode='replicate')] on the last dimension of a
    tensor, here one row of it: the first entry is repeated [left] times
    before the row and the last one [right] times after it.  A row without
    entries has nothing to repeat and is refused ([None]). *)
Definition pad_replicate {A : Type} (x : list A) (left right : nat)
    : option (list A) :=
  match x with
  | [] => None
  | a :: _ => Some (repeat a left ++ x ++ repeat (last x a) right)
  end.

(** [x[..., slice(start, stop)]] on one row, for [start >= 0]. *)
Definition getslice {A : Type} (x : list A) (start : nat) (stop : Z) : list A :=
  let n := Z.of_nat (length x) in
  let stop' := if (stop <? 0)%Z then Z.max 0 (stop + n) else Z.min stop n in
  firstn (Z.to_nat stop' - start) (skipn start x).

(** [Model.inference_pad], for a model of depth [depth]: the padded row
    and the bounds of the slice that undoes the padding.  The padded
    length is below the next multiple of [2 ** depth], so the difference
    [pad] is positive. *)
Definition inference_pad {A : Type} (depth : nat) (x : list A)
    : option (list A * (nat * Z)) :=
  match pad_replicate x VALID_PAD VALID_PAD with
  | None => None
  | Some x1 =>
      let size := length x1 in
      let pad := ((1 + size / 2 ^ depth) * 2 ^ depth - size)%nat in
      match pad_replicate x1 0 pad with
      | None => None
      | Some x2 => Some (x2, (VALID_PAD, (- Z.of_nat (VALID_PAD + pad))%Z))
      end
  end.

(** ** Inputs used below *)

(** A straight cubic, [q(t) = (3t, 0)]. *)
Definition line : curve := [(0, 0); (1, 0); (2, 0); (3, 0)].

(** A cubic whose second differences do not vanish. *)
Definition bend : curve := [(0, 0); (0, 0); (0, 0); (1, 0)].

(** Three coincident points. *)
Definition coincident : list vec2 := [(0, 0); (0, 0); (0, 0)].

(** A closed polyline: the last point is the first. *)
Definition closed : list vec2 := [(0, 0); (1, 0); (0, 0)].

(** A peak over the chord from (0,0) to (2,0). *)
Definition peak : list vec2 := [(0, 0); (1, 2); (2, 0)].

(** A store holding a curve, a range of points, a parameterization and two
    tangents, at the references 0 to 4. *)
Definition example_store : heap :=
  [Arr2 line; Arr2 peak; Arr1 [0; 0.5; 1]; Arr1 [1; 0]; Arr1 [-1; 0]].

(** A bound whose square overflows: 2^700, about 5e210. *)
Definition huge : float := 0x1p700.

(** An arch over the chord from (0,0) to (4,0). *)
Definition arch : list vec2 := [(0, 0); (1, 1); (3, 1); (4, 0)].

(** One point four times. *)
Definition repeated : list vec2 := [(1, 2); (1, 2); (1, 2); (1, 2)].

(** A curve that leaves (0,0) to the right, and arrives at (4,0) from the
    left. *)
Definition rightward : curve := [(0, 0); (1, 0); (3, 0); (4, 0)].

(** * Properties *)

(** ** The Newton-Raphson reparameterizer *)

(** The step the code takes, row by row: the quotient is added. *)
Lemma newton_raphson_root_find_rows (bez : curve) (points : list vec2)
    (u : list float) :
  newton_raphson_root_find bez points u =
  map (fun pu =>
         snd pu + (if newton_den bez (fst pu) (snd pu) =? 0 then 0
                   else newton_num bez (fst pu) (snd pu)
                        / newton_den bez (fst pu) (snd pu)))
      (combine points u).
Proof. reflexivity. Qed.

(** C1 (code): on the straight cubic [line], for the point (0.5, 0) at
    parameter 0.5, numerator 4 and denominator 16 give the quotient 0.25;
    [newton_raphson_root_find] returns 0.5 + 0.25 = 0.75, where the
    documented step [u - numerator/denominator] is 0.25. *)
Theorem newton_raphson_adds_quotient :
  newton_num line (0.5, 0) 0.5 = 4 /\
  newton_den line (0.5, 0) 0.5 = 16 /\
  newton_raphson_root_find line [(0.5, 0)] [0.5] = [0.75] /\
  Spec.newton_raphson_root_find line [(0.5, 0)] [0.5] = [0.25].
Proof. repeat split; vm_compute; reflexivity. Qed.

(** ** The derivative evaluators *)

(** [hodo] scales the differences of four control points by 4, the number
    of points, and those of three points by 3. *)
Lemma hodo_cubic (p0 p1 p2 p3 : vec2) :
  hodo [p0; p1; p2; p3] =
  [np.scale 4 (np.sub p1 p0); np.scale 4 (np.sub p2 p1);
   np.scale 4 (np.sub p3 p2)].
Proof. reflexivity. Qed.

Lemma hodo_quadratic (h0 h1 h2 : vec2) :
  hodo [h0; h1; h2] = [np.scale 3 (np.sub h1 h0); np.scale 3 (np.sub h2 h1)].
Proof. reflexivity. Qed.

(** C2 (code): [qprime] evaluates the quadratic over 4 (P_{i+1} - P_i), not
    3 (P_{i+1} - P_i): on [line] it gives (4, 0) where the hodograph curve
    gives (3, 0).  [qprimeprime] evaluates the line over 3 times the
    differences of those points, not 2 times: on [bend] it gives (6, 0)
    where the second hodograph gives (3, 0). *)
Theorem qprime_scales_by_point_count :
  hodo line = [(4, 0); (4, 0); (4, 0)] /\
  Spec.hodograph line = [(3, 0); (3, 0); (3, 0)] /\
  qprime line [0.5] = [(4, 0)] /\
  Spec.qprime line [0.5] = [(3, 0)] /\
  qprimeprime bend [0.5] = [(6, 0)] /\
  Spec.qprimeprime bend [0.5] = [(3, 0)].
Proof. repeat split; vm_compute; reflexivity. Qed.

(** ** The driver on two points *)

(** With two points the weights are empty, so both estimated tangents are
    the zero vector. *)
Lemma two_point_tangents (p0 p1 : vec2) :
  tangents [p0; p1] None None = Ok ((0, 0), (0, 0)).
Proof. vm_compute. reflexivity. Qed.

(** C3 (code): on [(0,0), (1,0)] with [max_err = 1.0] and no tangents,
    [fit_bezier] returns one curve whose inner control points are the end
    points themselves, (0,0) and (1,0), not (1/3,0) and (2/3,0). *)
Theorem fit_two_points_inner_at_ends {L : Libm} (fuel : nat) :
  fit_bezier (S fuel) [(0, 0); (1, 0)] 1 None None =
  Ok [[(0, 0); (0, 0); (1, 0); (1, 0)]].
Proof. vm_compute. reflexivity. Qed.

(** ** The driver on coincident points *)

(** The chord-length parameterization of coincident points divides zero by
    zero: every parameter is NaN. *)
Lemma coincident_parameterization :
  chord_length_parameterize coincident = Ok [nan; nan; nan].
Proof. vm_compute. reflexivity. Qed.

Lemma coincident_tangents :
  tangents coincident None None = Ok ((0, 0), (0, 0)).
Proof. vm_compute. reflexivity. Qed.

(** A range of one point raises [TypeError] at [u /= u[-1]]. *)
Lemma fit_one_point_raises {L : Libm} (fuel : nat) (p lt rt : vec2) (max_err : float) :
  fit_bezier (S fuel) [p] max_err (Some lt) (Some rt) = Raise TypeError.
Proof. reflexivity. Qed.

(** ** Order of binary64 *)

Section SpecOrder.
Import SpecFloat.
Local Open Scope Z_scope.

(** On the specification floats: [x < y], [not (z < y)] and [z] not NaN
    give [x < z]. *)
Lemma SFltb_trans_not_ltb (x y z : spec_float) :
  SFltb x y = true -> SFltb z y = false -> SFeqb z z = true ->
  SFltb x z = true.
Proof.
  unfold SFltb, SFeqb.
  destruct x as [sx|sx| |sx mx ex], y as [sy|sy| |sy my ey],
           z as [sz|sz| |sz mz ez]; simpl;
    try discriminate; try reflexivity;
    repeat match goal with
           | s : bool |- _ => destruct s
           end; simpl; try discriminate; try reflexivity;
    repeat match goal with
           | |- context [Z.compare ?a ?b] => destruct (Z.compare_spec a b)
           end; simpl; try discriminate; try reflexivity; try lia;
    rewrite ?Pos.compare_cont_spec; simpl;
    repeat match goal with
           | |- context [Pos.compare ?a ?b] => destruct (Pos.compare_spec a b)
           end; simpl; try discriminate; try reflexivity; try lia.
Qed.
(** One right shift, and any number of them. *)
Lemma shr_1_inv (n M : Z) (r : shr_record) :
  0 <= n -> shr_inv n M r -> shr_inv (n + 1) M (shr_1 r).
Proof.
  intros Hn (Hm & Hb & _). unfold shr_inv.
  replace (n + 1 - 1) with n by lia.
  rewrite Z.pow_add_r, Z.pow_1_r by lia.
  assert (Hp : 0 < 2 ^ n) by (apply Z.pow_pos_nonneg; lia).
  set (P := 2 ^ n) in *. clearbody P.
  destruct r as [m r s]. cbv [shr_m shr_r] in Hm, Hb.
  destruct m as [|[p|p|]|p]; cbv [shr_1 shr_m shr_r]; try lia;
    (split; [lia|]); (split; [lia|]); intros H; try discriminate; lia.
Qed.

Lemma iter_pos_shr_inv (p : positive) :
  forall n M r, 0 <= n -> shr_inv n M r ->
                shr_inv (n + Zpos p) M (iter_pos shr_1 p r).
Proof.
  induction p as [p IH|p IH|]; intros n M r Hn H; simpl.
  - replace (n + Zpos p~1) with (n + 1 + Zpos p + Zpos p) by lia.
    apply IH; [lia|]. apply IH; [lia|]. now apply shr_1_inv.
  - replace (n + Zpos p~0) with (n + Zpos p + Zpos p) by lia.
    apply IH; [lia|]. now apply IH.
  - now apply shr_1_inv.
Qed.

Lemma shr_spec (M e n : Z) :
  0 <= M ->
  shr_inv (Z.max n 0) M (fst (shr (Build_shr_record M false false) e n)) /\
  snd (shr (Build_shr_record M false false) e n) = e + Z.max n 0.
Proof.
  intros HM.
  assert (H0 : shr_inv 0 M (Build_shr_record M false false)).
  { unfold shr_inv. cbv [shr_m shr_r]. rewrite Z.pow_0_r.
    repeat split; try lia; discriminate. }
  destruct n as [|p|p]; simpl.
  - split; [exact H0 | lia].
  - split; [|lia]. replace (Z.pos p) with (0 + Z.pos p) at 1 by lia.
    now apply iter_pos_shr_inv.
  - split; [exact H0 | lia].
Qed.

Lemma round_nearest_even_bounds (r : shr_record) :
  shr_m r <= round_nearest_even (shr_m r) (loc_of_shr_record r) <= shr_m r + 1 /\
  (round_nearest_even (shr_m r) (loc_of_shr_record r) = shr_m r + 1 ->
   shr_r r = true).
Proof.
  destruct r as [m [|] [|]]; simpl; try (destruct (Z.even m)); split;
    try lia; try reflexivity; intros; lia.
Qed.

Lemma digits2_pos_bounds (p : positive) :
  2 ^ (Zpos (digits2_pos p) - 1) <= Zpos p < 2 ^ Zpos (digits2_pos p).
Proof.
  induction p as [p IH|p IH|]; simpl digits2_pos;
    rewrite ?Pos2Z.inj_succ.
  - replace (Z.succ (Zpos (digits2_pos p)) - 1) with (Zpos (digits2_pos p) - 1 + 1) by lia.
    unfold Z.succ. rewrite !Z.pow_add_r, Z.pow_1_r by lia. lia.
  - replace (Z.succ (Zpos (digits2_pos p)) - 1) with (Zpos (digits2_pos p) - 1 + 1) by lia.
    unfold Z.succ. rewrite !Z.pow_add_r, Z.pow_1_r by lia. lia.
  - simpl. lia.
Qed.

Lemma digits2_pos_le (p : positive) (k : Z) :
  0 <= k -> Zpos p < 2 ^ k -> Zpos (digits2_pos p) <= k.
Proof.
  intros Hk H. pose proof (digits2_pos_bounds p) as [Hl _].
  assert (2 ^ (Zpos (digits2_pos p) - 1) < 2 ^ k) by lia.
  apply Z.pow_lt_mono_r_iff in H0; lia.
Qed.

Lemma digits2_pos_gt (p : positive) (k : Z) :
  0 <= k -> 2 ^ k <= Zpos p -> k < Zpos (digits2_pos p).
Proof.
  intros Hk H. pose proof (digits2_pos_bounds p) as [_ Hu].
  assert (2 ^ k < 2 ^ Zpos (digits2_pos p)) by lia.
  apply Z.pow_lt_mono_r_iff in H0; lia.
Qed.

Lemma SFltb_finite (m1 m2 : positive) (e1 e2 : Z) :
  e1 < e2 \/ (e1 = e2 /\ Zpos m1 < Zpos m2) ->
  SFltb (S754_finite false m1 e1) (S754_finite false m2 e2) = true.
Proof.
  unfold SFltb, SFcompare. intros [H|[-> H]].
  - apply Z.compare_lt_iff in H. now rewrite H.
  - rewrite Z.compare_refl, Pos.compare_cont_spec. simpl.
    apply Pos.compare_lt_iff in H. now rewrite H.
Qed.

Lemma SFltb_finite_inv (m1 m2 : positive) (e1 e2 : Z) :
  SFltb (S754_finite false m1 e1) (S754_finite false m2 e2) = true ->
  (e1 < e2 \/ (e1 = e2 /\ Zpos m1 < Zpos m2))%Z.
Proof.
  unfold SFltb, SFcompare.
  destruct (Z.compare_spec e1 e2) as [E|E|E]; try discriminate.
  - rewrite Pos.compare_cont_spec. simpl.
    destruct (Pos.compare_spec m1 m2) as [E'|E'|E']; try discriminate.
    intros _. right. split; [exact E | exact E'].
  - intros _. now left.
Qed.

Lemma below_one_exponent (mx : positive) (ex : Z) :
  bounded 53 1024 mx ex = true ->
  SFltb (S754_finite false mx ex) (S754_finite false 4503599627370496 (-52)) = true ->
  (ex <= -53)%Z.
Proof.
  intros Hv H1. apply SFltb_finite_inv in H1.
  destruct H1 as [H1|[H1 H2]]; [clear - H1; lia|].
  exfalso. subst ex.
  unfold bounded, canonical_mantissa, fexp, emin in Hv.
  apply andb_prop in Hv. destruct Hv as [Hc _]. apply Z.eqb_eq in Hc.
  assert (Hd : (Zpos (digits2_pos mx) <= 52)%Z).
  { apply digits2_pos_le.
    - clear. lia.
    - change (2 ^ 52)%Z with 4503599627370496%Z. exact H2. }
  clear - Hc Hd. lia.
Qed.

(** Arithmetic of the rounded square. *)
Lemma rounded_square_below (a T P H m1 m2 : Z) :
  1 <= a -> a < T -> 2 < T -> P <= T -> P = 2 * H ->
  m1 * P <= a * a ->
  m2 = m1 \/ (m2 = m1 + 1 /\ m1 * P + H <= a * a) ->
  m2 * P < a * T.
Proof.
  intros Ha HaT HT HP HH Hm1 Hm2.
  assert (Hc : 0 <= (a - 1) * (T - 1 - a))
    by (apply Z.mul_nonneg_nonneg; lia).
  destruct Hm2 as [->|[-> Hr]]; lia.
Qed.

Lemma quotient_at_least (M m P k : Z) :
  0 < P -> k * P <= M -> M < (m + 1) * P -> k <= m.
Proof.
  intros HP H1 H2.
  assert (H : k * P < (m + 1) * P) by lia.
  apply Z.mul_lt_mono_pos_r in H; lia.
Qed.

Lemma pow2_split (x y : Z) : 0 <= x -> 0 <= y -> 2 ^ (x + y) = 2 ^ x * 2 ^ y.
Proof. intros. now apply Z.pow_add_r. Qed.

Lemma canonical_mantissa_facts (mx : positive) (ex : Z) :
  bounded 53 1024 mx ex = true ->
  Zpos (digits2_pos mx) <= 53 /\ -1074 <= ex /\
  (Zpos (digits2_pos mx) = 53 \/ ex = -1074).
Proof.
  unfold bounded, canonical_mantissa, fexp, emin. intros Hb.
  apply andb_prop in Hb. destruct Hb as [Hc _]. apply Z.eqb_eq in Hc.
  clear - Hc. lia.
Qed.

Lemma square_digits (mx : positive) :
  Zpos mx < 2 ^ 53 ->
  Zpos (digits2_pos (mx * mx)) <= 106 /\
  (2 ^ 52 <= Zpos mx -> 105 <= Zpos (digits2_pos (mx * mx))).
Proof.
  intros Ha. split.
  - apply digits2_pos_le; [lia|]. rewrite Pos2Z.inj_mul.
    change (2 ^ 106) with (2 ^ 53 * 2 ^ 53).
    assert (0 < Zpos mx) by lia.
    apply Z.mul_lt_mono_nonneg; lia.
  - intros Hl.
    assert (104 < Zpos (digits2_pos (mx * mx))); [|lia].
    apply digits2_pos_gt; [lia|]. rewrite Pos2Z.inj_mul.
    change (2 ^ 104) with (2 ^ 52 * 2 ^ 52).
    apply Z.mul_le_mono_nonneg; lia.
Qed.

Lemma first_shift_facts (D ex N : Z) :
  N = Z.max (Z.max (D + (ex + ex) - 53) (3 - 1024 - 53) - (ex + ex)) 0 ->
  D <= 106 -> -1074 <= ex -> ex <= -53 -> 105 <= D \/ ex = -1074 ->
  1 <= N /\ N <= - ex /\ -1074 <= ex + ex + N /\
  (-1074 < ex + ex + N -> N = D - 53).
Proof. lia. Qed.

Lemma second_shift_facts (dg e1 N2 : Z) :
  N2 = Z.max (Z.max (dg + e1 - 53) (3 - 1024 - 53) - e1) 0 ->
  -1074 <= e1 -> 0 <= N2 /\ (N2 = 0 \/ N2 = dg - 53).
Proof. lia. Qed.

(** A canonical result of smaller value compares below. *)
Lemma smaller_value_below (a T m3 ex e2 S : Z) :
  T = 2 ^ (- ex) -> ex <= -53 -> 0 <= S -> e2 = ex + ex + S ->
  a < 2 ^ 53 -> 0 < m3 ->
  m3 * 2 ^ S < a * T ->
  (ex < e2 -> 2 ^ 52 <= m3) ->
  e2 < ex \/ (e2 = ex /\ m3 < a).
Proof.
  intros HT Hex HS He2 Ha Hm3 HV Hn.
  assert (HTpos : 0 < T) by (subst T; apply Z.pow_pos_nonneg; lia).
  destruct (Z.lt_trichotomy e2 ex) as [Hlt|[Heq|Hgt]]; [now left| |].
  - right. split; [exact Heq|].
    replace S with (- ex) in HV by lia. rewrite <- HT in HV.
    apply Z.mul_lt_mono_pos_r in HV; assumption.
  - exfalso. specialize (Hn Hgt).
    replace S with (e2 - ex + - ex) in HV by lia.
    rewrite Z.pow_add_r, <- HT, Z.mul_assoc in HV by lia.
    apply Z.mul_lt_mono_pos_r in HV; [|assumption].
    assert (H2 : 2 ^ 1 <= 2 ^ (e2 - ex)) by (apply Z.pow_le_mono_r; lia).
    assert (H3 : m3 * 2 ^ 1 <= m3 * 2 ^ (e2 - ex))
      by (apply Z.mul_le_mono_nonneg_l; lia).
    change (2 ^ 53) with (2 ^ 52 * 2 ^ 1) in Ha.
    clear - Ha Hn HV H3. lia.
Qed.

(** The square of a float below one is below it, on the specification:
    the product of the mantissas is shifted right at least once, rounded
    and renormalized; what comes out is a canonical float of smaller value,
    so it compares below the argument. *)
Lemma SFmul_self_lt (mx : positive) (ex : Z) :
  bounded 53 1024 mx ex = true ->
  ex <= -53 ->
  SFltb (SFmul 53 1024 (S754_finite false mx ex) (S754_finite false mx ex))
        (S754_finite false mx ex) = true.
Proof.
  intros Hb Hex.
  destruct (canonical_mantissa_facts mx ex Hb) as (Hd53 & Hex' & Hnorm).
  pose proof (digits2_pos_bounds mx) as Hd.
  pose proof (digits2_pos_bounds (mx * mx)) as HD.
  rewrite Pos2Z.inj_mul in HD.
  assert (Ha53 : Zpos mx < 2 ^ 53).
  { assert (H : 2 ^ Zpos (digits2_pos mx) <= 2 ^ 53)
      by (apply Z.pow_le_mono_r; lia).
    clear - Hd H. lia. }
  destruct (square_digits mx Ha53) as [HD106 HD105].
  assert (HDn : 105 <= Zpos (digits2_pos (mx * mx)) \/ ex = -1074).
  { destruct Hnorm as [E|E]; [left | now right].
    apply HD105. rewrite E in Hd. exact (proj1 Hd). }
  clear Hb Hd Hd53 Hnorm HD105.
  (* the first shift *)
  unfold SFmul, binary_round_aux, shr_fexp. cbv [xorb shr_record_of_loc].
  change (Zdigits2 (Zpos (mx * mx))) with (Zpos (digits2_pos (mx * mx))).
  unfold fexp, emin.
  destruct (shr_spec (Zpos (mx * mx)) (ex + ex)
              (Z.max (Zpos (digits2_pos (mx * mx)) + (ex + ex) - 53)
                     (3 - 1024 - 53) - (ex + ex)) ltac:(clear; lia))
    as [Hi1 He1].
  destruct (shr _ (ex + ex) _) as [rec1 e1]. cbn [fst snd] in Hi1, He1.
  rewrite Pos2Z.inj_mul in Hi1.
  remember (Z.max (Z.max (Zpos (digits2_pos (mx * mx)) + (ex + ex) - 53)
                         (3 - 1024 - 53) - (ex + ex)) 0) as N eqn:HN.
  destruct (first_shift_facts _ ex N HN HD106 Hex' Hex HDn)
    as (HN1 & HNex & He1' & HNn).
  rewrite <- He1 in He1', HNn.
  destruct Hi1 as (Hm1 & Hq1 & Hr1).
  pose proof (round_nearest_even_bounds rec1) as [Hm2 Hup].
  remember (Zpos (digits2_pos (mx * mx))) as D eqn:HDdef.
  remember (Zpos mx) as a eqn:Hadef.
  assert (Ha : 1 <= a) by (subst a; clear; lia).
  remember (shr_m rec1) as m1 eqn:Hm1def.
  remember (round_nearest_even m1 (loc_of_shr_record rec1)) as m2 eqn:Hm2def.
  assert (HP : 0 < 2 ^ N) by (apply Z.pow_pos_nonneg; clear - HN1; lia).
  assert (Hnorm1 : -1074 < e1 -> 2 ^ 52 <= m1).
  { intros H. specialize (HNn H).
    apply (quotient_at_least (a * a) m1 (2 ^ N)); [exact HP| |apply Hq1].
    rewrite <- pow2_split by (clear - HN1; lia).
    replace (52 + N) with (D - 1) by (clear - HNn; lia). apply HD. }
  assert (HV : m2 * 2 ^ N < a * 2 ^ (- ex)).
  { apply (rounded_square_below a (2 ^ (- ex)) (2 ^ N) (2 ^ (N - 1)) m1 m2).
    - exact Ha.
    - assert (2 ^ 53 <= 2 ^ (- ex)) by (apply Z.pow_le_mono_r; lia).
      clear - Ha53 H. lia.
    - assert (2 ^ 53 <= 2 ^ (- ex)) by (apply Z.pow_le_mono_r; lia).
      change (2 ^ 53) with 9007199254740992 in H. clear - H. lia.
    - apply Z.pow_le_mono_r; [lia | exact HNex].
    - replace N with (1 + (N - 1)) at 1 by lia.
      rewrite pow2_split by (clear - HN1; lia). reflexivity.
    - apply Hq1.
    - assert (E : m2 = m1 \/ m2 = m1 + 1) by (clear - Hm2; lia).
      destruct E as [E|E]; [now left | right].
      split; [exact E|]. apply Hr1, Hup, E. }
  (* the second shift *)
  assert (Hm2pos : 0 <= m2) by (clear - Hm1 Hm2; lia).
  destruct (shr_spec m2 e1 (Z.max (Zdigits2 m2 + e1 - 53) (3 - 1024 - 53) - e1)
              Hm2pos) as [Hi2 He2].
  destruct (shr _ e1 _) as [rec2 e2]. cbn [fst snd] in Hi2, He2.
  remember (Z.max (Z.max (Zdigits2 m2 + e1 - 53) (3 - 1024 - 53) - e1) 0)
    as N2 eqn:HN2.
  destruct (second_shift_facts _ e1 N2 HN2 He1') as [HN2pos HN2c].
  destruct Hi2 as (Hm3 & Hq3 & _).
  remember (shr_m rec2) as m3 eqn:Hm3def.
  assert (HQ : 0 < 2 ^ N2)
    by (apply Z.pow_pos_nonneg; [clear; lia | exact HN2pos]).
  assert (Hnorm3 : ex < e2 -> 0 < m3 -> 2 ^ 52 <= m3).
  { intros He Hpos.
    destruct (Z.eq_dec N2 0) as [E0|E0].
    - rewrite E0, Z.pow_0_r in Hq3.
      assert (2 ^ 52 <= m1) by (apply Hnorm1; clear - He He2 E0 Hex'; lia).
      clear - H Hq3 Hm2. lia.
    - destruct m2 as [|q|q].
      + exfalso. assert (0 < m3 * 2 ^ N2) by (apply Z.mul_pos_pos; assumption).
        clear - H Hq3. lia.
      + cbv [Zdigits2] in HN2c.
        pose proof (digits2_pos_bounds q) as [Hq _].
        apply (quotient_at_least (Zpos q) m3 (2 ^ N2)); [exact HQ| |apply Hq3].
        rewrite <- pow2_split by (clear - HN2pos; lia).
        replace (52 + N2) with (Zpos (digits2_pos q) - 1)
          by (clear - HN2c E0; lia).
        exact Hq.
      + exfalso. clear - Hm2pos. lia. }
  assert (HV3 : m3 * 2 ^ (N + N2) < a * 2 ^ (- ex)).
  { rewrite pow2_split by (clear - HN1 HN2pos; lia).
    assert (H : m3 * 2 ^ N2 * 2 ^ N <= m2 * 2 ^ N)
      by (apply Z.mul_le_mono_nonneg_r; [clear - HP; lia | apply Hq3]).
    rewrite <- Z.mul_assoc, (Z.mul_comm (2 ^ N2)) in H.
    clear - H HV. lia. }
  assert (Hle : 0 < m3 -> e2 < ex \/ (e2 = ex /\ m3 < a)).
  { intros Hpos.
    apply (smaller_value_below a (2 ^ (- ex)) m3 ex e2 (N + N2));
      try assumption; try reflexivity.
    - clear - HN1 HN2pos. lia.
    - clear - He1 He2. lia.
    - intros H. now apply Hnorm3. }
  cbv zeta iota beta.
  destruct m3 as [|q|q]; [reflexivity | | exfalso; clear - Hm3; lia].
  assert (Hq0 : 0 < Z.pos q) by (clear; lia).
  destruct (Hle Hq0) as [Hlt|[Heq Hlt]].
  - replace (e2 <=? 1024 - 53) with true
      by (symmetry; apply Z.leb_le; clear - Hlt Hex; lia).
    apply SFltb_finite. now left.
  - replace (e2 <=? 1024 - 53) with true
      by (symmetry; apply Z.leb_le; clear - Heq Hex; lia).
    apply SFltb_finite. right. split; [exact Heq|]. subst a. exact Hlt.
Qed.

End SpecOrder.

Lemma ltb_trans_not_ltb (a b c : float) :
  (a <? b) = true -> (c <? b) = false -> is_nan c = false ->
  (a <? c) = true.
Proof.
  unfold is_nan. rewrite !ltb_spec, FloatAxioms.eqb_spec.
  intros H1 H2 H3. apply (SFltb_trans_not_ltb _ _ _ H1 H2).
  now destruct (SpecFloat.SFeqb (Prim2SF c) (Prim2SF c)).
Qed.

(** In binary64 the square of a number strictly between 0 and 1 is
    strictly below it. *)
Lemma mul_self_ltb (m : float) :
  (0 <? m) = true -> (m <? 1) = true -> (m * m <? m) = true.
Proof.
  rewrite (ltb_spec 0 m), (ltb_spec m 1), (ltb_spec (m * m) m), mul_spec.
  pose proof (Prim2SF_valid m) as Hv.
  change (Prim2SF 0) with (SpecFloat.S754_zero false).
  change (Prim2SF 1)
    with (SpecFloat.S754_finite false 4503599627370496 (-52)).
  destruct (Prim2SF m) as [s|s| |s mx ex]; intros H0 H1.
  - discriminate H0.
  - destruct s; [discriminate H0 | discriminate H1].
  - discriminate H0.
  - destruct s; [discriminate H0|].
    exact (SFmul_self_lt mx ex Hv (below_one_exponent mx ex Hv H1)).
Qed.

(** ** Order and NaN in binary64 *)

Section SpecOrderLe.
Import SpecFloat.
Local Open Scope Z_scope.

Ltac order_cases :=
  simpl; try discriminate; try reflexivity;
  repeat match goal with
         | s : bool |- _ => destruct s
         end; simpl; try discriminate; try reflexivity;
  repeat match goal with
         | |- context [Z.compare ?a ?b] => destruct (Z.compare_spec a b)
         end; simpl; try discriminate; try reflexivity; try lia;
  rewrite ?Pos.compare_cont_spec; simpl;
  repeat match goal with
         | |- context [Pos.compare ?a ?b] => destruct (Pos.compare_spec a b)
         end; simpl; try discriminate; try reflexivity; try lia.

Lemma SFleb_refl (x : spec_float) : SFeqb x x = true -> SFleb x x = true.
Proof.
  unfold SFleb, SFeqb. destruct x as [sx|sx| |sx mx ex]; order_cases.
Qed.

Lemma SFleb_trans_not_leb (y mp x : spec_float) :
  SFleb y mp = true -> SFleb x mp = false -> SFeqb x x = true ->
  SFleb y x = true.
Proof.
  unfold SFleb, SFeqb.
  destruct x as [sx|sx| |sx mx ex], y as [sy|sy| |sy my ey],
           mp as [sz|sz| |sz mz ez]; order_cases.
Qed.

Lemma SFleb_ltb_trans (x e m : spec_float) :
  SFleb x e = true -> SFltb e m = true -> SFltb x m = true.
Proof.
  unfold SFleb, SFltb.
  destruct x as [sx|sx| |sx mx ex], e as [sy|sy| |sy my ey],
           m as [sz|sz| |sz mz ez]; order_cases.
Qed.

Lemma SFltb_not_nan (x y : spec_float) :
  SFltb x y = true -> SFeqb x x = true.
Proof.
  unfold SFltb, SFeqb.
  destruct x as [sx|sx| |sx mx ex], y as [sy|sy| |sy my ey]; order_cases.
Qed.

Lemma SFeqb_nan (x : spec_float) : SFeqb x x = false -> x = S754_nan.
Proof.
  unfold SFeqb. destruct x as [sx|sx| |sx mx ex]; order_cases.
Qed.

End SpecOrderLe.

Lemma is_nan_SFeqb (a : float) :
  is_nan a = false <-> SpecFloat.SFeqb (Prim2SF a) (Prim2SF a) = true.
Proof.
  unfold is_nan. rewrite FloatAxioms.eqb_spec.
  destruct (SpecFloat.SFeqb _ _); simpl; split; congruence.
Qed.

Lemma leb_refl_not_nan (a : float) : is_nan a = false -> (a <=? a) = true.
Proof. rewrite is_nan_SFeqb, leb_spec. apply SFleb_refl. Qed.

Lemma leb_trans_not_leb (a b c : float) :
  (a <=? b) = true -> (c <=? b) = false -> is_nan c = false ->
  (a <=? c) = true.
Proof. rewrite is_nan_SFeqb, !leb_spec. apply SFleb_trans_not_leb. Qed.

Lemma leb_ltb_trans (a b c : float) :
  (a <=? b) = true -> (b <? c) = true -> (a <? c) = true.
Proof. rewrite leb_spec, !ltb_spec. apply SFleb_ltb_trans. Qed.

Lemma ltb_not_nan (a b : float) : (a <? b) = true -> is_nan a = false.
Proof. rewrite is_nan_SFeqb, ltb_spec. apply SFltb_not_nan. Qed.

Lemma is_nan_Prim2SF (a : float) :
  is_nan a = true -> Prim2SF a = SpecFloat.S754_nan.
Proof.
  intros H. apply SFeqb_nan. rewrite <- FloatAxioms.eqb_spec.
  unfold is_nan in H. now destruct (a =? a).
Qed.

Lemma is_nan_add_l (a b : float) : is_nan a = true -> is_nan (a + b) = true.
Proof.
  intros H. unfold is_nan. rewrite FloatAxioms.eqb_spec, add_spec.
  rewrite (is_nan_Prim2SF a H). reflexivity.
Qed.

(** ** NaN in binary64 *)

Lemma is_nan_eq (a : float) : is_nan a = true -> a = nan.
Proof.
  intros H. apply Prim2SF_inj. now rewrite (is_nan_Prim2SF a H).
Qed.

Lemma nan_mul_l (x : float) : nan * x = nan.
Proof.
  apply Prim2SF_inj. rewrite mul_spec.
  change (Prim2SF nan) with SpecFloat.S754_nan. reflexivity.
Qed.

Lemma nan_mul_r (x : float) : x * nan = nan.
Proof.
  apply Prim2SF_inj. rewrite mul_spec.
  change (Prim2SF nan) with SpecFloat.S754_nan.
  destruct (Prim2SF x); reflexivity.
Qed.

Lemma nan_add_l (x : float) : nan + x = nan.
Proof.
  apply Prim2SF_inj. rewrite add_spec.
  change (Prim2SF nan) with SpecFloat.S754_nan. reflexivity.
Qed.

Lemma nan_add_r (x : float) : x + nan = nan.
Proof.
  apply Prim2SF_inj. rewrite add_spec.
  change (Prim2SF nan) with SpecFloat.S754_nan.
  destruct (Prim2SF x); reflexivity.
Qed.

Lemma nan_sub_l (x : float) : nan - x = nan.
Proof.
  apply Prim2SF_inj. rewrite sub_spec.
  change (Prim2SF nan) with SpecFloat.S754_nan. reflexivity.
Qed.

Lemma nan_ltb_l (x : float) : (nan <? x) = false.
Proof.
  rewrite ltb_spec. change (Prim2SF nan) with SpecFloat.S754_nan. reflexivity.
Qed.

Lemma nan_ltb_r (x : float) : (x <? nan) = false.
Proof.
  rewrite ltb_spec. change (Prim2SF nan) with SpecFloat.S754_nan.
  destruct (Prim2SF x); reflexivity.
Qed.

(** ** The refinement loop *)

Lemma bind_Ok {A B : Type} (r : result A) (k : A -> result B) (b : B) :
  bind r k = Ok b -> exists a, r = Ok a /\ k a = Ok b.
Proof. destruct r; simpl; intros H; try discriminate. eauto. Qed.

(** The scan of [argmax] answers an index of the array. *)
Lemma argmax_scan_bound (l : list float) :
  forall mp best i, (best < i)%nat ->
  (np.argmax_scan mp best i l < i + length l)%nat.
Proof.
  induction l as [|x l IH]; intros mp best i Hb; simpl.
  - lia.
  - destruct (x <=? mp).
    + specialize (IH mp best (S i)). lia.
    + destruct (is_nan x).
      * lia.
      * specialize (IH x i (S i)). lia.
Qed.

Lemma argmax_bound (l : list float) (i : nat) :
  np.argmax l = Ok i -> (i < length l)%nat.
Proof.
  destruct l as [|x l]; simpl; intros H; inversion H; subst; clear H.
  destruct (is_nan x).
  - lia.
  - pose proof (argmax_scan_bound l x 0%nat 1%nat). lia.
Qed.

Lemma argmax_nonempty (l : list float) :
  l <> [] -> exists i, np.argmax l = Ok i.
Proof. destruct l; [congruence | simpl; eauto]. Qed.

Lemma getitem_nat {A : Type} (a : list A) (i : nat) :
  (i < length a)%nat -> exists x, getitem a (Z.of_nat i) = Ok x /\ nth_error a i = Some x.
Proof.
  intros Hi. unfold getitem.
  destruct (Z.ltb_spec (Z.of_nat i) 0); [lia|].
  destruct (Z.ltb_spec (Z.of_nat i) 0); [lia|].
  destruct (Z.leb_spec (Z.of_nat (length a)) (Z.of_nat i)); [lia|].
  simpl. rewrite Nat2Z.id.
  destruct (nth_error a i) eqn:E.
  - eauto.
  - apply nth_error_None in E. lia.
Qed.

Lemma sq_errors_length (bez : curve) (points : list vec2) (u : list float) :
  length (sq_errors bez points u) = Nat.min (length u) (length points).
Proof.
  unfold sq_errors, q, bezier.evaluate_multi.
  now rewrite length_map, length_combine, length_map.
Qed.

(** An iteration on a non-empty range with one parameter per point raises
    nothing, and its split point is an index of the range. *)
Lemma fit_iteration_total (points : list vec2) (lt rt : vec2) (u : list float) :
  points <> [] -> length u = length points ->
  exists bez sp err,
    fit_iteration points lt rt u = Ok (bez, sp, err) /\
    bez = generate_bezier points u lt rt /\
    (sp < length points)%nat.
Proof.
  intros Hne Hlen. unfold fit_iteration.
  set (bez := generate_bezier points u lt rt).
  assert (Hl : length (sq_errors bez points u) = length points)
    by (rewrite sq_errors_length; lia).
  destruct (argmax_nonempty (sq_errors bez points u)) as [sp Hsp].
  { destruct points; [congruence|]. destruct (sq_errors bez (v :: points) u);
      [discriminate | congruence]. }
  rewrite Hsp. simpl.
  pose proof (argmax_bound _ _ Hsp) as Hb.
  destruct (getitem_nat (sq_errors bez points u) sp Hb) as [err [He _]].
  rewrite He. simpl. exists bez, sp, err. repeat split. lia.
Qed.

Lemma fit_iteration_Ok (points : list vec2) (lt rt : vec2) (u : list float)
    (bez : curve) (sp : nat) (err : float) :
  fit_iteration points lt rt u = Ok (bez, sp, err) ->
  bez = generate_bezier points u lt rt /\ (sp < length points)%nat.
Proof.
  unfold fit_iteration. intros H.
  apply bind_Ok in H. destruct H as [sp' [Hsp H]].
  apply bind_Ok in H. destruct H as [err' [_ H]].
  inversion H; subst; clear H. split; [reflexivity|].
  apply argmax_bound in Hsp. rewrite sq_errors_length in Hsp. lia.
Qed.

(** The power has a value or overflows. *)
Lemma float_pow_2_cases {L : Libm} (v : float) :
  (exists squared, float_pow_2 v = Ok squared) \/
  float_pow_2 v = Raise OverflowError.
Proof.
  unfold float_pow_2.
  destruct (is_nan v); [eauto|].
  destruct (is_infinity v); [eauto|].
  destruct (v =? 0); [eauto|].
  destruct (abs v =? 1); [eauto|].
  cbv zeta. destruct (is_infinity (pow_two (abs v))); eauto.
Qed.

(** One iteration of the loop, given what it computes. *)
Lemma refine_step {L : Libm} (remaining : nat) (points : list vec2)
    (max_err : float) (lt rt : vec2) (u : list float) (bez : curve)
    (sp : nat) (err : float) :
  fit_iteration points lt rt u = Ok (bez, sp, err) ->
  refine remaining points max_err lt rt u =
  if err <? max_err then Ok (Converged bez, 1%nat)
  else
    squared <- float_pow_2 max_err ;;
    if squared <? err then Ok (Failed sp, 1%nat)
    else match remaining with
         | O => Ok (Failed sp, 1%nat)
         | S remaining' =>
             x <- refine remaining' points max_err lt rt
                    (newton_raphson_root_find bez points u) ;;
             Ok (fst x, S (snd x))
         end.
Proof. intros H. destruct remaining; simpl; rewrite H; reflexivity. Qed.

(** The loop performs at least one and at most [remaining + 1]
    iterations, and never runs out of recursion budget. *)
Lemma refine_iterations {L : Libm} (remaining : nat) (points : list vec2) (max_err : float)
    (lt rt : vec2) :
  forall u e n,
    refine remaining points max_err lt rt u = Ok (e, n) ->
    (1 <= n <= S remaining)%nat.
Proof.
  induction remaining as [|r IH]; intros u e n H;
    destruct (fit_iteration points lt rt u) as [[[bez sp] err]| |] eqn:Ei;
    try (unfold refine in H; rewrite Ei in H; discriminate);
    rewrite (refine_step _ _ _ _ _ _ _ _ _ Ei) in H;
    (destruct (err <? max_err); [inversion H; lia|]);
    apply bind_Ok in H; destruct H as [squared [_ H]];
    (destruct (squared <? err); [inversion H; lia|]);
    try (inversion H; lia).
  apply bind_Ok in H. destruct H as [[e' n'] [Hr H]].
  inversion H; subst; clear H. apply IH in Hr. simpl. lia.
Qed.

Lemma fit_iteration_not_OutOfFuel (points : list vec2) (lt rt : vec2)
    (u : list float) :
  fit_iteration points lt rt u <> OutOfFuel.
Proof.
  unfold fit_iteration.
  destruct (np.argmax _) as [sp| |] eqn:Ea; simpl; try discriminate;
    try (destruct (sq_errors _ _ _); discriminate).
  destruct (getitem _ _) as [err| |] eqn:Eg; simpl; try discriminate.
  unfold getitem in Eg.
  repeat match type of Eg with
         | context [if ?c then _ else _] => destruct c
         | context [match ?c with _ => _ end] => destruct c
         end; discriminate.
Qed.

Lemma refine_not_OutOfFuel {L : Libm} (remaining : nat) (points : list vec2)
    (max_err : float) (lt rt : vec2) :
  forall u, refine remaining points max_err lt rt u <> OutOfFuel.
Proof.
  induction remaining as [|r IH]; intros u;
    (destruct (fit_iteration points lt rt u) as [[[bez sp] err]| |] eqn:Ei;
     [ | unfold refine; rewrite Ei; discriminate
       | exfalso; exact (fit_iteration_not_OutOfFuel _ _ _ _ Ei)]);
    rewrite (refine_step _ _ _ _ _ _ _ _ _ Ei);
    (destruct (err <? max_err); [discriminate|]);
    (destruct (float_pow_2_cases max_err) as [[squared ->] | ->];
     [|discriminate]); simpl;
    (destruct (squared <? err); [discriminate|]);
    try discriminate.
  specialize (IH (newton_raphson_root_find bez points u)).
  destruct (refine r points max_err lt rt _); simpl; congruence.
Qed.

Arguments refine : simpl never.

Lemma parameterization_succ (k : nat) (points : list vec2) (lt rt : vec2)
    (u0 : list float) :
  parameterization (S k) points lt rt u0 =
  newton_raphson_root_find
    (generate_bezier points (parameterization k points lt rt u0) lt rt)
    points (parameterization k points lt rt u0).
Proof. reflexivity. Qed.

Lemma parameterization_shift (k : nat) (points : list vec2) (lt rt : vec2)
    (u0 : list float) :
  parameterization (S k) points lt rt u0 =
  parameterization k points lt rt (reparameterize points lt rt u0).
Proof. unfold parameterization. apply Nat.iter_succ_r. Qed.

(** While the iterations keep going, the loop is the loop resumed from a
    later parameterization. *)
Lemma refine_skip {L : Libm} (points : list vec2) (max_err : float) (lt rt : vec2) :
  forall k r u,
    (forall j, (j < k)%nat ->
       keeps_iterating points max_err lt rt
         (parameterization j points lt rt u) = true) ->
    refine (k + r) points max_err lt rt u =
    (x <- refine r points max_err lt rt (parameterization k points lt rt u) ;;
     Ok (fst x, (k + snd x)%nat)).
Proof.
  induction k as [|k IH]; intros r u Hk.
  - simpl. unfold parameterization. simpl.
    destruct (refine r points max_err lt rt u) as [[e n]| |]; reflexivity.
  - assert (H0 := Hk 0%nat ltac:(lia)).
    unfold keeps_iterating, parameterization in H0. simpl in H0.
    destruct (fit_iteration points lt rt u) as [[[bez sp] err]| |] eqn:Ei;
      try discriminate.
    apply andb_prop in H0. destruct H0 as [Ha Hb].
    apply negb_true_iff in Ha.
    destruct (float_pow_2 max_err) as [squared| |] eqn:Ep; try discriminate.
    apply negb_true_iff in Hb.
    destruct (fit_iteration_Ok _ _ _ _ _ _ _ Ei) as [Hbez _]. subst bez.
    change (S k + r)%nat with (S (k + r)).
    rewrite (refine_step _ _ _ _ _ _ _ _ _ Ei), Ha, Ep. cbn [bind]. rewrite Hb.
    change (newton_raphson_root_find (generate_bezier points u lt rt) points u)
      with (reparameterize points lt rt u).
    rewrite parameterization_shift, IH.
    + destruct (refine r points max_err lt rt _) as [[e n]| |]; reflexivity.
    + intros j Hj. rewrite <- parameterization_shift. apply Hk. lia.
Qed.

(** [fit_bezier] after its loop, in the general case. *)
Lemma fit_bezier_after_loop {L : Libm} (fuel : nat) (points : list vec2) (max_err : float)
    (left right : option vec2) (lt rt : vec2) (e : loop_exit) (n : nat) :
  tangents points left right = Ok (lt, rt) ->
  length points <> 2%nat ->
  fit_loop points max_err lt rt = Ok (e, n) ->
  fit_bezier (S fuel) points max_err left right =
  match e with
  | Converged bez => Ok [bez]
  | Failed sp =>
      subdivide (fun p l r => fit_bezier fuel p max_err l r) points lt rt sp
  end.
Proof.
  intros Ht Hl Hf. simpl. rewrite Ht. simpl.
  apply Nat.eqb_neq in Hl. rewrite Hl, Hf. reflexivity.
Qed.

(** C4 (as amended): in iteration [k] (from 0) of the refinement loop,
    reached because no earlier iteration left the loop, with [bez], [sp]
    and [err] the curve, split point and maximal error of that iteration:
    if [err < max_err], [fit_bezier] returns [[bez]].  Otherwise
    [max_err ** 2] is evaluated: if that raises, [fit_bezier] raises the
    same exception; if [err > max_err ** 2], the loop stops after these
    [k + 1] iterations and [fit_bezier] subdivides at [sp]; otherwise the
    loop goes on from the Newton-Raphson reparameterization when [k < 31],
    and falls through to the subdivision at [sp] when [k = 31].  The loop
    never performs more than 32 iterations. *)
Theorem refinement_loop_iteration {L : Libm} (fuel : nat) (points : list vec2)
    (max_err : float) (left right : option vec2) (lt rt : vec2)
    (u0 : list float) (k : nat) (bez : curve) (sp : nat) (err : float) :
  tangents points left right = Ok (lt, rt) ->
  length points <> 2%nat ->
  chord_length_parameterize points = Ok u0 ->
  (k < 32)%nat ->
  (forall j, (j < k)%nat ->
     keeps_iterating points max_err lt rt
       (parameterization j points lt rt u0) = true) ->
  fit_iteration points lt rt (parameterization k points lt rt u0)
    = Ok (bez, sp, err) ->
  ((err <? max_err) = true ->
     fit_loop points max_err lt rt = Ok (Converged bez, S k) /\
     fit_bezier (S fuel) points max_err left right = Ok [bez]) /\
  ((err <? max_err) = false ->
     (forall e, float_pow_2 max_err = Raise e ->
        fit_loop points max_err lt rt = Raise e /\
        fit_bezier (S fuel) points max_err left right = Raise e) /\
     (forall squared, float_pow_2 max_err = Ok squared ->
        ((squared <? err) = true ->
           fit_loop points max_err lt rt = Ok (Failed sp, S k) /\
           fit_bezier (S fuel) points max_err left right =
           subdivide (fun p l r => fit_bezier fuel p max_err l r)
                     points lt rt sp) /\
        ((squared <? err) = false ->
           ((k < 31)%nat ->
              parameterization (S k) points lt rt u0 =
              newton_raphson_root_find bez points
                (parameterization k points lt rt u0) /\
              fit_loop points max_err lt rt =
              (x <- refine (30 - k) points max_err lt rt
                      (parameterization (S k) points lt rt u0) ;;
               Ok (fst x, (S k + snd x)%nat))) /\
           (k = 31%nat ->
              fit_loop points max_err lt rt = Ok (Failed sp, 32%nat) /\
              fit_bezier (S fuel) points max_err left right =
              subdivide (fun p l r => fit_bezier fuel p max_err l r)
                        points lt rt sp)))) /\
  (forall e n, fit_loop points max_err lt rt = Ok (e, n) -> (1 <= n <= 32)%nat).
Proof.
  intros Ht Hl Hu Hk Hkeep Hi.
  destruct (fit_iteration_Ok _ _ _ _ _ _ _ Hi) as [Hbez _].
  assert (Hloop : fit_loop points max_err lt rt =
                  (x <- refine (31 - k) points max_err lt rt
                          (parameterization k points lt rt u0) ;;
                   Ok (fst x, (k + snd x)%nat))).
  { unfold fit_loop. rewrite Hu. simpl.
    replace 31%nat with (k + (31 - k))%nat at 1 by lia.
    now apply refine_skip. }
  rewrite (refine_step _ _ _ _ _ _ _ _ _ Hi) in Hloop.
  assert (Hfb : forall e n,
             fit_loop points max_err lt rt = Ok (e, n) ->
             fit_bezier (S fuel) points max_err left right =
             match e with
             | Converged b => Ok [b]
             | Failed s =>
                 subdivide (fun p l r => fit_bezier fuel p max_err l r)
                           points lt rt s
             end)
    by (intros e n He; eapply fit_bezier_after_loop; eauto).
  assert (Hraise : forall e,
             fit_loop points max_err lt rt = Raise e ->
             fit_bezier (S fuel) points max_err left right = Raise e).
  { intros e He. simpl. rewrite Ht. simpl.
    apply Nat.eqb_neq in Hl. rewrite Hl, He. reflexivity. }
  split; [|split].
  - intros H.
    assert (Hf : fit_loop points max_err lt rt = Ok (Converged bez, S k))
      by (rewrite Hloop, H; simpl; f_equal; f_equal; lia).
    split; [exact Hf | exact (Hfb _ _ Hf)].
  - intros H. rewrite H in Hloop. split.
    + intros e He. rewrite He in Hloop. split; [exact Hloop|].
      exact (Hraise _ Hloop).
    + intros squared Hs. rewrite Hs in Hloop. cbn [bind] in Hloop. split.
      * intros H0. rewrite H0 in Hloop.
        assert (Hf : fit_loop points max_err lt rt = Ok (Failed sp, S k))
          by (rewrite Hloop; simpl; f_equal; f_equal; lia).
        split; [exact Hf | exact (Hfb _ _ Hf)].
      * intros H0. rewrite H0 in Hloop. split.
        -- intros Hlt. split.
           ++ rewrite parameterization_succ, <- Hbez. reflexivity.
           ++ rewrite Hloop.
              replace (31 - k)%nat with (S (30 - k)) by lia.
              rewrite parameterization_succ, <- Hbez.
              destruct (refine (30 - k) points max_err lt rt _)
                as [[e n]| |]; simpl; try reflexivity.
              f_equal. f_equal. lia.
        -- intros ->.
           assert (Hf : fit_loop points max_err lt rt
                        = Ok (Failed sp, 32%nat))
             by (rewrite Hloop; reflexivity).
           split; [exact Hf | exact (Hfb _ _ Hf)].
  - intros e n H. unfold fit_loop in H. rewrite Hu in H.
    apply refine_iterations in H. lia.
Qed.

Lemma refinement_loop_iteration_witness :
  tangents peak (Some (1, 0)) (Some (-1, 0)) = Ok ((1, 0), (-1, 0)) /\
  chord_length_parameterize peak = Ok [0; 0.5; 1] /\
  keeps_iterating (L := rounded_pow) peak 3 (1, 0) (-1, 0) [0; 0.5; 1]
  = true /\
  fit_iteration peak (1, 0) (-1, 0)
    (parameterization 1 peak (1, 0) (-1, 0) [0; 0.5; 1])
  = Ok (generate_bezier peak
          (parameterization 1 peak (1, 0) (-1, 0) [0; 0.5; 1]) (1, 0) (-1, 0),
        1%nat, 4) /\
  float_pow_2 (L := rounded_pow) 3 = Ok 9 /\
  fit_loop (L := rounded_pow) peak 3 (1, 0) (-1, 0) =
  (x <- refine (L := rounded_pow) 29 peak 3 (1, 0) (-1, 0)
          (parameterization 2 peak (1, 0) (-1, 0) [0; 0.5; 1]) ;;
   Ok (fst x, (2 + snd x)%nat)) /\
  (forall e n, fit_loop (L := rounded_pow) peak 3 (1, 0) (-1, 0) = Ok (e, n) ->
               (1 <= n <= 32)%nat).
Proof.
  assert (Ht : tangents peak (Some (1, 0)) (Some (-1, 0))
               = Ok ((1, 0), (-1, 0))) by reflexivity.
  assert (Hu : chord_length_parameterize peak = Ok [0; 0.5; 1])
    by (vm_compute; reflexivity).
  assert (Hk0 : keeps_iterating (L := rounded_pow) peak 3 (1, 0) (-1, 0)
                  [0; 0.5; 1] = true)
    by (vm_compute; reflexivity).
  assert (Hi : fit_iteration peak (1, 0) (-1, 0)
                 (parameterization 1 peak (1, 0) (-1, 0) [0; 0.5; 1])
               = Ok (generate_bezier peak
                       (parameterization 1 peak (1, 0) (-1, 0) [0; 0.5; 1])
                       (1, 0) (-1, 0), 1%nat, 4))
    by (vm_compute; reflexivity).
  assert (Hp : float_pow_2 (L := rounded_pow) 3 = Ok 9)
    by (vm_compute; reflexivity).
  assert (Hl : length peak <> 2%nat) by (simpl; lia).
  assert (Hkeep : forall j, (j < 1)%nat ->
            keeps_iterating (L := rounded_pow) peak 3 (1, 0) (-1, 0)
              (parameterization j peak (1, 0) (-1, 0) [0; 0.5; 1]) = true)
    by (intros [|j] Hj; [exact Hk0 | lia]).
  destruct (refinement_loop_iteration (L := rounded_pow) 0 peak 3
              (Some (1, 0)) (Some (-1, 0))
              (1, 0) (-1, 0) [0; 0.5; 1] 1 _ 1%nat 4
              Ht Hl Hu ltac:(lia) Hkeep Hi) as (_ & H3 & H4).
  destruct (H3 ltac:(vm_compute; reflexivity)) as [_ H5].
  destruct (H5 9 Hp) as [_ H6].
  destruct (H6 ltac:(vm_compute; reflexivity)) as [Hlt _].
  destruct (Hlt ltac:(lia)) as [_ Hf].
  exact (conj Ht (conj Hu (conj Hk0 (conj Hi (conj Hp (conj Hf H4)))))).
Defined.

(** C4 (as stated) fails where [max_err ** 2] overflows: on three
    coincident points with [max_err = 2 ** 700] the error of the first
    iteration is NaN, so [err < max_err] is false, and the power raises
    [OverflowError] where the claim has the loop go on. *)
Lemma overflowing_bound_raises :
  fit_iteration coincident (0, 0) (0, 0) [nan; nan; nan]
  = Ok (generate_bezier coincident [nan; nan; nan] (0, 0) (0, 0), 0%nat, nan) /\
  (nan <? huge) = false /\
  float_pow_2 (L := rounded_pow) huge = Raise OverflowError /\
  fit_loop (L := rounded_pow) coincident huge (0, 0) (0, 0)
  = Raise OverflowError /\
  fit_bezier (L := rounded_pow) 2 coincident huge None None
  = Raise OverflowError.
Proof. repeat split; vm_compute; reflexivity. Qed.

(** ** The first iteration under a bound below one *)

Lemma diffs_length (p : list vec2) : length (diffs p) = (length p - 1)%nat.
Proof.
  induction p as [|a [|b p] IH]; simpl in *; try reflexivity.
  rewrite IH. lia.
Qed.

Lemma cumsum_from_length (l : list float) :
  forall acc, length (np.cumsum_from acc l) = length l.
Proof. induction l; intros acc; simpl; [reflexivity | now rewrite IHl]. Qed.

Lemma cumsum_length (l : list float) : length (np.cumsum l) = length l.
Proof. destruct l; simpl; [reflexivity | now rewrite cumsum_from_length]. Qed.

(** With at least two points the chord-length parameterization raises
    nothing and has one parameter per point. *)
Lemma chord_length_parameterize_total (points : list vec2) :
  (2 <= length points)%nat ->
  exists u0, chord_length_parameterize points = Ok u0 /\
             length u0 = length points.
Proof.
  intros H. unfold chord_length_parameterize.
  assert (Hc : length (np.cumsum (map np.norm (diffs points)))
               = (length points - 1)%nat)
    by now rewrite cumsum_length, length_map, diffs_length.
  destruct (np.cumsum (map np.norm (diffs points))) as [|c0 c] eqn:E.
  - simpl in Hc. lia.
  - eexists. split; [reflexivity|]. simpl in *. rewrite length_map. lia.
Qed.

Lemma chord_length_parameterize_Ok (points : list vec2) (u0 : list float) :
  chord_length_parameterize points = Ok u0 ->
  (2 <= length points)%nat /\ length u0 = length points.
Proof.
  intros H.
  assert (Hl : (2 <= length points)%nat).
  { destruct points as [|a [|b p]]; try discriminate. simpl. lia. }
  split; [exact Hl|].
  destruct (chord_length_parameterize_total points Hl) as [u [Hu Hlen]].
  congruence.
Qed.

(** The first iteration of the loop always has a curve, a split point and
    an error. *)
Lemma first_iteration_defined (points : list vec2) (lt rt : vec2) :
  (2 <= length points)%nat ->
  exists u0 bez sp err,
    chord_length_parameterize points = Ok u0 /\
    fit_iteration points lt rt u0 = Ok (bez, sp, err).
Proof.
  intros H. destruct (chord_length_parameterize_total points H) as [u0 [Hu Hl]].
  destruct (fit_iteration_total points lt rt u0) as (bez & sp & err & Hi & _).
  - destruct points; simpl in *; [lia | congruence].
  - exact Hl.
  - eauto 6.
Qed.

(** *** The sign of a rounded result *)

Section SpecSign.
Import SpecFloat.
Local Open Scope Z_scope.

(** Rounding keeps the sign it is given. *)
Lemma binary_round_aux_sign (prec emax : Z) (s : bool) (m e : Z)
    (l : location) :
  binary_round_aux prec emax s m e l = S754_nan \/
  binary_round_aux prec emax s m e l = S754_zero s \/
  binary_round_aux prec emax s m e l = S754_infinity s \/
  exists m' e', binary_round_aux prec emax s m e l = S754_finite s m' e'.
Proof.
  unfold binary_round_aux.
  destruct (shr_fexp prec emax m e l) as [mrs' e'].
  destruct (shr_fexp prec emax _ e' loc_Exact) as [mrs'' e''].
  destruct (shr_m mrs'') as [|p|p]; [auto | | auto].
  destruct (e'' <=? emax - prec); [right; right; right; eauto | auto].
Qed.

Lemma SFltb_SFeqb (x y : spec_float) : SFltb x y = true -> SFeqb x y = false.
Proof. unfold SFltb, SFeqb. now destruct (SFcompare x y) as [[| |]|]. Qed.

(** The square of a number strictly between 0 and 1 is finite. *)
Lemma SFmul_self_finite (mx : positive) (ex : Z) :
  SFltb (SF64mul (S754_finite false mx ex) (S754_finite false mx ex))
        (S754_finite false mx ex) = true ->
  SFeqb (SFabs (SF64mul (S754_finite false mx ex) (S754_finite false mx ex)))
        (S754_infinity false) = false.
Proof.
  unfold SF64mul, SFmul. cbv [xorb].
  destruct (binary_round_aux_sign prec emax false (Zpos (mx * mx)) (ex + ex)
              loc_Exact) as [-> | [-> | [-> | (m' & e' & ->)]]];
    intros H; try reflexivity; discriminate H.
Qed.

End SpecSign.

(** For a library with the rounded square, the power of a bound strictly
    between 0 and 1 is its product with itself. *)
Lemma float_pow_2_rounded (m : float) :
  (0 <? m) = true -> (m <? 1) = true ->
  float_pow_2 (L := rounded_pow) m = Ok (m * m).
Proof.
  intros H0 H1. pose proof (mul_self_ltb m H0 H1) as Hsq.
  assert (Habs : abs m = m).
  { apply Prim2SF_inj. rewrite abs_spec. revert H0. rewrite ltb_spec.
    change (Prim2SF 0) with (SpecFloat.S754_zero false).
    destruct (Prim2SF m) as [[|]|[|]| |[|] mx ex]; intros H;
      try discriminate H; reflexivity. }
  assert (Hinf : is_infinity m = false).
  { unfold is_infinity. rewrite Habs, FloatAxioms.eqb_spec.
    revert H1. rewrite ltb_spec.
    change (Prim2SF infinity) with (SpecFloat.S754_infinity false).
    destruct (Prim2SF m) as [[|]|[|]| |[|] mx ex]; intros H;
      try discriminate H; reflexivity. }
  assert (Hz : (m =? 0) = false).
  { rewrite FloatAxioms.eqb_spec. revert H0. rewrite ltb_spec.
    change (Prim2SF 0) with (SpecFloat.S754_zero false).
    destruct (Prim2SF m) as [[|]|[|]| |[|] mx ex]; intros H;
      try discriminate H; reflexivity. }
  assert (H1' : (m =? 1) = false).
  { rewrite FloatAxioms.eqb_spec. apply SFltb_SFeqb.
    now rewrite <- ltb_spec. }
  assert (Hsqi : is_infinity (m * m) = false).
  { unfold is_infinity. rewrite FloatAxioms.eqb_spec, abs_spec.
    change (Prim2SF infinity) with (SpecFloat.S754_infinity false).
    revert Hsq H0. rewrite (ltb_spec (m * m) m), (ltb_spec 0 m), mul_spec.
    change (Prim2SF 0) with (SpecFloat.S754_zero false).
    destruct (Prim2SF m) as [s|s| |s mx ex]; intros Hsq H;
      try discriminate H; destruct s; try discriminate H;
      try discriminate Hsq.
    exact (SFmul_self_finite mx ex Hsq). }
  unfold float_pow_2. rewrite (ltb_not_nan _ _ H1), Hinf, Hz, Habs, H1'.
  cbv zeta. change (pow_two m) with (m * m). now rewrite Hsqi.
Qed.

(** C9 (as amended): with at least 3 points and a bound with
    [max_err ** 2 < max_err], when the error [err] of the first iteration
    is not NaN the loop ends in that iteration: with the fitted curve if
    [err < max_err], and with the split point otherwise, since
    [max_err ** 2 < max_err <= err]; that iteration calls
    [newton_raphson_root_find] no time.  When [err] is NaN and
    [max_err ** 2] has a value, both tests are false and the loop goes on
    with a call of [newton_raphson_root_find].  Where the library's power
    is the rounded square, [max_err ** 2 < max_err] holds whenever
    [0 < max_err < 1]. *)
Theorem first_iteration_exits {L : Libm} (points : list vec2) (max_err : float)
    (lt rt : vec2) (u0 : list float) (bez : curve) (sp : nat) (err : float)
    (squared : float) :
  (3 <= length points)%nat ->
  chord_length_parameterize points = Ok u0 ->
  fit_iteration points lt rt u0 = Ok (bez, sp, err) ->
  float_pow_2 max_err = Ok squared ->
  ((squared <? max_err) = true -> is_nan err = false ->
   fit_loop points max_err lt rt =
   Ok (if err <? max_err then Converged bez else Failed sp, 1%nat)) /\
  (is_nan err = true ->
   fit_loop points max_err lt rt =
   (x <- refine 30 points max_err lt rt
           (newton_raphson_root_find bez points u0) ;;
    Ok (fst x, S (snd x)))) /\
  ((0 <? max_err) = true -> (max_err <? 1) = true ->
   float_pow_2 (L := rounded_pow) max_err = Ok (max_err * max_err) /\
   (max_err * max_err <? max_err) = true).
Proof.
  intros _ Hu Hi Hp.
  assert (Hloop : fit_loop points max_err lt rt =
                  refine 31 points max_err lt rt u0)
    by (unfold fit_loop; rewrite Hu; reflexivity).
  rewrite (refine_step _ _ _ _ _ _ _ _ _ Hi), Hp in Hloop.
  cbn [bind] in Hloop.
  split; [|split].
  - intros Hsq Hnan. rewrite Hloop.
    destruct (err <? max_err) eqn:E; [reflexivity|].
    now rewrite (ltb_trans_not_ltb _ _ _ Hsq E Hnan).
  - intros Hnan. apply is_nan_eq in Hnan. subst err.
    rewrite Hloop, nan_ltb_l, nan_ltb_r. reflexivity.
  - intros H0 H1. split; [now apply float_pow_2_rounded|].
    now apply mul_self_ltb.
Qed.

Lemma first_iteration_exits_witness :
  (3 <= length peak)%nat /\
  chord_length_parameterize peak = Ok [0; 0.5; 1] /\
  float_pow_2 (L := rounded_pow) 0.5 = Ok 0.25 /\
  (0.25 <? 0.5) = true /\
  fit_loop (L := rounded_pow) peak 0.5 (1, 0) (-1, 0)
  = Ok (Failed 1, 1%nat).
Proof.
  assert (Hu : chord_length_parameterize peak = Ok [0; 0.5; 1])
    by (vm_compute; reflexivity).
  assert (Hi : fit_iteration peak (1, 0) (-1, 0) [0; 0.5; 1]
               = Ok (generate_bezier peak [0; 0.5; 1] (1, 0) (-1, 0), 1%nat, 4))
    by (vm_compute; reflexivity).
  assert (Hl : (3 <= length peak)%nat) by (simpl; lia).
  assert (Hp : float_pow_2 (L := rounded_pow) 0.5 = Ok 0.25)
    by (vm_compute; reflexivity).
  destruct (first_iteration_exits (L := rounded_pow) peak 0.5 (1, 0) (-1, 0)
              [0; 0.5; 1] _ 1%nat 4 0.25 Hl Hu Hi Hp) as [Hf _].
  exact (conj Hl (conj Hu (conj Hp (conj eq_refl
           (Hf eq_refl eq_refl))))).
Defined.

(** C9 (as stated) fails: on three coincident points with
    [max_err = 0.5], whose power is 0.25 in every library, every error is
    NaN, neither test of the loop holds, and the loop performs all 32
    iterations, 31 of them after a Newton-Raphson reparameterization. *)
Lemma coincident_loop_keeps_iterating :
  (3 <= length coincident)%nat /\
  (0 <? 0.5) = true /\ (0.5 <? 1) = true /\
  tangents coincident None None = Ok ((0, 0), (0, 0)) /\
  float_pow_2 (L := rounded_pow) 0.5 = Ok 0.25 /\
  fit_loop (L := rounded_pow) coincident 0.5 (0, 0) (0, 0)
  = Ok (Failed 0, 32%nat).
Proof.
  split; [simpl; lia|].
  repeat split; vm_compute; reflexivity.
Qed.

(** ** Signs and numbers in binary64 *)

Section SpecNotNegative.
Import SpecFloat.
Local Open Scope Z_scope.

Lemma SFltb_round_zero (s : bool) (m e : Z) (l : location) :
  SFltb (binary_round_aux prec emax false m e l) (S754_zero s) = false.
Proof.
  destruct (binary_round_aux_sign prec emax false m e l)
    as [-> | [-> | [-> | (m' & e' & ->)]]]; reflexivity.
Qed.

Lemma SFsqrt_not_neg (x : spec_float) :
  SFltb (SF64sqrt x) (S754_zero false) = false.
Proof.
  unfold SF64sqrt, SFsqrt.
  destruct x as [[|]|[|]| |[|] mx ex]; try reflexivity.
  destruct (SFsqrt_core_binary prec emax (Zpos mx) ex) as [[mz ez] lz].
  apply SFltb_round_zero.
Qed.

Lemma SFdiv_not_neg (x y : spec_float) :
  SFltb x (S754_zero false) = false ->
  SFltb (S754_zero false) y = true ->
  SFltb (SF64div x y) (S754_zero false) = false.
Proof.
  unfold SF64div, SFdiv.
  destruct x as [[|]|[|]| |[|] mx ex], y as [[|]|[|]| |[|] my ey];
    intros Hx Hy; try discriminate Hx; try discriminate Hy;
    try reflexivity.
  cbv [xorb].
  destruct (SFdiv_core_binary prec emax (Zpos mx) ex (Zpos my) ey)
    as [[mz ez] lz].
  apply SFltb_round_zero.
Qed.

Lemma SFmul_not_neg (c x : spec_float) :
  SFltb (S754_zero false) c = true ->
  SFltb x (S754_zero false) = false ->
  SFltb (SF64mul c x) (S754_zero false) = false.
Proof.
  unfold SF64mul, SFmul.
  destruct x as [[|]|[|]| |[|] mx ex], c as [[|]|[|]| |[|] my ey];
    intros Hc Hx; try discriminate Hx; try discriminate Hc;
    try reflexivity.
  cbv [xorb]. apply SFltb_round_zero.
Qed.

(** [a] is not below a bound that is a number and not negative, so [a]
    is not negative. *)
Lemma SFltb_bound_not_neg (a e : spec_float) :
  SFltb a e = false -> SFltb e (S754_zero false) = false ->
  SFeqb e e = true -> SFltb a (S754_zero false) = false.
Proof.
  unfold SFltb, SFeqb.
  destruct a as [[|]|[|]| |[|] ma ea], e as [[|]|[|]| |[|] me ee];
    simpl; intros H1 H2 H3; try reflexivity; try discriminate.
Qed.

(** Multiplying a finite number by zero and adding the product to a
    number that is not NaN gives that number. *)
Lemma SFadd_mul_zero (p x a : spec_float) :
  SFeqb a (S754_zero false) = true ->
  SFeqb x x = true -> SFeqb (SFabs x) (S754_infinity false) = false ->
  SFeqb p p = true ->
  SFeqb (SF64add p (SF64mul x a)) p = true.
Proof.
  unfold SF64add, SF64mul, SFadd, SFmul.
  destruct a as [[|]|[|]| |[|] ma ea]; intros Ha; try discriminate Ha;
    destruct x as [[|]|[|]| |[|] mx ex]; intros Hx Hi;
    try discriminate Hx; try discriminate Hi;
    destruct p as [[|]|[|]| |[|] mp ep]; intros Hp; try discriminate Hp;
    cbv [xorb]; try reflexivity; exact Hp.
Qed.

End SpecNotNegative.

Lemma sqrt_not_neg (x : float) : (sqrt x <? 0) = false.
Proof.
  rewrite ltb_spec, sqrt_spec. apply SFsqrt_not_neg.
Qed.

Lemma div_not_neg (x y : float) :
  (x <? 0) = false -> (0 <? y) = true -> (x / y <? 0) = false.
Proof.
  rewrite !ltb_spec, div_spec. apply SFdiv_not_neg.
Qed.

Lemma mul_not_neg (c x : float) :
  (0 <? c) = true -> (x <? 0) = false -> (c * x <? 0) = false.
Proof.
  rewrite !ltb_spec, mul_spec. apply SFmul_not_neg.
Qed.

Lemma ltb_bound_not_neg (a e : float) :
  (a <? e) = false -> (e <? 0) = false -> is_nan e = false ->
  (a <? 0) = false.
Proof.
  rewrite is_nan_SFeqb, !ltb_spec. apply SFltb_bound_not_neg.
Qed.

Lemma is_finite_SF (x : float) :
  is_finite x = true ->
  SpecFloat.SFeqb (Prim2SF x) (Prim2SF x) = true /\
  SpecFloat.SFeqb (SpecFloat.SFabs (Prim2SF x)) (SpecFloat.S754_infinity false)
  = false.
Proof.
  unfold is_finite, is_nan, is_infinity.
  rewrite !FloatAxioms.eqb_spec, abs_spec.
  change (Prim2SF infinity) with (SpecFloat.S754_infinity false).
  destruct (SpecFloat.SFeqb (Prim2SF x) (Prim2SF x));
    destruct (SpecFloat.SFeqb _ (SpecFloat.S754_infinity false));
    simpl; intros H; try discriminate H; auto.
Qed.

Lemma add_mul_zero (p x a : float) :
  (a =? 0) = true -> is_finite x = true -> is_nan p = false ->
  (p + x * a =? p) = true.
Proof.
  intros Ha Hx Hp. apply is_finite_SF in Hx. destruct Hx as [Hx Hi].
  rewrite is_nan_SFeqb in Hp.
  rewrite FloatAxioms.eqb_spec in Ha.
  rewrite FloatAxioms.eqb_spec, add_spec, mul_spec.
  now apply SFadd_mul_zero.
Qed.

Section SpecNumber.
Import SpecFloat.
Local Open Scope Z_scope.

Lemma shr_1_nonneg (r : shr_record) : 0 <= shr_m r -> 0 <= shr_m (shr_1 r).
Proof.
  destruct r as [m r s]. cbv [shr_m].
  destruct m as [|[p|p|]|p]; cbv [shr_1 shr_m]; lia.
Qed.

Lemma iter_pos_shr_1_nonneg (p : positive) :
  forall r, 0 <= shr_m r -> 0 <= shr_m (iter_pos shr_1 p r).
Proof.
  induction p as [p IH|p IH|]; intros r H; simpl.
  - apply IH, IH. now apply shr_1_nonneg.
  - now apply IH, IH.
  - now apply shr_1_nonneg.
Qed.

Lemma shr_fexp_nonneg (m e : Z) (l : location) :
  0 <= m -> 0 <= shr_m (fst (shr_fexp prec emax m e l)).
Proof.
  intros H. unfold shr_fexp, shr.
  assert (H0 : 0 <= shr_m (shr_record_of_loc m l))
    by (destruct l as [|[| |]]; exact H).
  destruct (fexp prec emax (Zdigits2 m + e) - e) as [|p|p]; simpl;
    try exact H0.
  now apply iter_pos_shr_1_nonneg.
Qed.

(** Rounding a mantissa that is not negative gives a number. *)
Lemma binary_round_aux_number (s : bool) (m e : Z) (l : location) :
  0 <= m ->
  SFeqb (binary_round_aux prec emax s m e l)
        (binary_round_aux prec emax s m e l) = true.
Proof.
  intros H. unfold binary_round_aux.
  pose proof (shr_fexp_nonneg m e l H) as H1.
  destruct (shr_fexp prec emax m e l) as [mrs' e']. simpl in H1.
  pose proof (round_nearest_even_bounds mrs') as [[H2 _] _].
  pose proof (shr_fexp_nonneg
                (round_nearest_even (shr_m mrs') (loc_of_shr_record mrs'))
                e' loc_Exact ltac:(lia)) as H3.
  destruct (shr_fexp prec emax _ e' loc_Exact) as [mrs'' e'']. simpl in H3.
  destruct (shr_m mrs'') as [|p|p]; [destruct s; reflexivity | | lia].
  destruct (e'' <=? emax - prec); [|destruct s; reflexivity].
  unfold SFeqb, SFcompare.
  destruct s; rewrite Z.compare_refl, Pos.compare_cont_refl; reflexivity.
Qed.

Lemma binary_round_number (s : bool) (m : positive) (e : Z) :
  SFeqb (binary_round prec emax s m e) (binary_round prec emax s m e) = true.
Proof.
  unfold binary_round.
  destruct (shl_align m e _) as [mz ez].
  now apply binary_round_aux_number.
Qed.

Lemma binary_normalize_number (m e : Z) (s : bool) :
  SFeqb (binary_normalize prec emax m e s) (binary_normalize prec emax m e s)
  = true.
Proof.
  destruct m as [|p|p]; simpl; [reflexivity | |];
    apply binary_round_number.
Qed.

Lemma SFsub_number (x y : spec_float) :
  SFfinite x -> SFfinite y -> SFeqb (SF64sub x y) (SF64sub x y) = true.
Proof.
  unfold SFfinite, SF64sub, SFsub.
  destruct x as [[|]|[|]| |sx mx ex]; intros [Hx Hxi];
    try discriminate Hx; try discriminate Hxi;
    destruct y as [[|]|[|]| |sy my ey]; intros [Hy Hyi];
    try discriminate Hy; try discriminate Hyi;
    try reflexivity; try exact Hx;
    try apply binary_normalize_number.
  - unfold SFeqb, SFcompare.
    destruct sy; simpl; rewrite Z.compare_refl, Pos.compare_cont_refl;
      reflexivity.
  - unfold SFeqb, SFcompare.
    destruct sy; simpl; rewrite Z.compare_refl, Pos.compare_cont_refl;
      reflexivity.
Qed.

Lemma SFmul_self_number (x : spec_float) :
  SFeqb x x = true -> SFnumber_not_neg (SF64mul x x).
Proof.
  unfold SFnumber_not_neg, SF64mul, SFmul.
  destruct x as [[|]|[|]| |[|] mx ex]; intros Hx; try discriminate Hx;
    try (split; reflexivity); cbv [xorb];
    (split; [now apply binary_round_aux_number | apply SFltb_round_zero]).
Qed.

Lemma SFadd_number (x y : spec_float) :
  SFnumber_not_neg x -> SFnumber_not_neg y -> SFnumber_not_neg (SF64add x y).
Proof.
  unfold SFnumber_not_neg, SF64add, SFadd.
  destruct x as [[|]|[|]| |[|] mx ex]; intros [Hx Hxn];
    try discriminate Hx; try discriminate Hxn;
    destruct y as [[|]|[|]| |[|] my ey]; intros [Hy Hyn];
    try discriminate Hy; try discriminate Hyn;
    try (split; reflexivity); try (split; assumption).
  cbv [cond_Zopp]. cbv zeta.
  destruct (shl_align mx ex (Z.min ex ey)) as [m1 e1].
  destruct (shl_align my ey (Z.min ex ey)) as [m2 e2]. cbv [fst].
  change (Z.pos m1 + Z.pos m2) with (Z.pos (m1 + m2)).
  cbv [binary_normalize binary_round].
  destruct (shl_align (m1 + m2) _ _) as [mz ez].
  split; [now apply binary_round_aux_number | apply SFltb_round_zero].
Qed.

Lemma SFsqrt_number (x : spec_float) :
  SFnumber_not_neg x -> SFeqb (SF64sqrt x) (SF64sqrt x) = true.
Proof.
  unfold SFnumber_not_neg, SF64sqrt, SFsqrt.
  destruct x as [[|]|[|]| |[|] mx ex]; intros [Hx Hxn];
    try discriminate Hx; try discriminate Hxn; try reflexivity.
  unfold SFsqrt_core_binary.
  set (e' := Z.min _ _). set (sh := ex - 2 * e').
  set (m' := match sh with Z0 => Zpos mx | Zpos _ => Z.shiftl (Zpos mx) sh
                         | Zneg _ => 0 end).
  assert (Hm : 0 <= m').
  { unfold m'. destruct sh; try lia. apply Z.shiftl_nonneg. lia. }
  pose proof (Z.sqrtrem_spec m' Hm) as Hs.
  destruct (Z.sqrtrem m') as [q r].
  apply binary_round_aux_number. nia.
Qed.

Lemma SFmul_number (c x : spec_float) :
  SFltb (S754_zero false) c = true -> SFfinite c ->
  SFeqb x x = true -> SFeqb (SF64mul c x) (SF64mul c x) = true.
Proof.
  unfold SFfinite, SF64mul, SFmul.
  destruct c as [[|]|[|]| |[|] mc ec]; intros Hc [_ Hci];
    try discriminate Hc; try discriminate Hci;
    destruct x as [[|]|[|]| |[|] mx ex]; intros Hx; try discriminate Hx;
    try reflexivity; now apply binary_round_aux_number.
Qed.

End SpecNumber.

(** The distance between two finite points is a number. *)
Lemma norm_sub_number (p q : vec2) :
  finite_vec p = true -> finite_vec q = true ->
  is_nan (np.norm (np.sub p q)) = false.
Proof.
  unfold finite_vec, np.norm, np.dot, np.sub. cbn [fst snd].
  intros Hp Hq.
  apply andb_prop in Hp. destruct Hp as [Hp1 Hp2].
  apply andb_prop in Hq. destruct Hq as [Hq1 Hq2].
  apply is_finite_SF in Hp1, Hp2, Hq1, Hq2.
  rewrite is_nan_SFeqb, sqrt_spec, add_spec, !mul_spec, !sub_spec.
  apply SFsqrt_number.
  apply SFadd_number; apply SFmul_self_number; now apply SFsub_number.
Qed.

(** ** The Bezier generator *)

Lemma getitem_first {A : Type} (a : list A) (d : A) :
  a <> [] -> getitem a 0 = Ok (hd d a).
Proof. destruct a; [congruence | reflexivity]. Qed.

Lemma nth_error_last {A : Type} (a : list A) (d : A) :
  a <> [] -> nth_error a (length a - 1) = Some (last a d).
Proof.
  induction a as [|x [|y a] IH]; intros H; try congruence; try reflexivity.
  replace (length (x :: y :: a) - 1)%nat with (S (length (y :: a) - 1))
    by (simpl; lia).
  change (nth_error (y :: a) (length (y :: a) - 1) = Some (last (y :: a) d)).
  apply IH. discriminate.
Qed.

Lemma getitem_last {A : Type} (a : list A) (d : A) :
  a <> [] -> getitem a (-1) = Ok (last a d).
Proof.
  intros H. unfold getitem. cbv zeta. change (-1 <? 0)%Z with true. cbv iota.
  assert (Hl : (0 < length a)%nat) by (destruct a; simpl; [congruence | lia]).
  destruct (Z.ltb_spec (-1 + Z.of_nat (length a)) 0); [lia|].
  destruct (Z.leb_spec (Z.of_nat (length a)) (-1 + Z.of_nat (length a))); [lia|].
  replace (Z.to_nat (-1 + Z.of_nat (length a))) with (length a - 1)%nat by lia.
  rewrite (nth_error_last a d H). reflexivity.
Qed.

Lemma is_finite_not_nan (x : float) : is_finite x = true -> is_nan x = false.
Proof. unfold is_finite. now destruct (is_nan x). Qed.

(** An offset of zero along a finite tangent leaves a finite point where
    it is. *)
Lemma zero_offset_coincides (p t : vec2) (a : float) :
  (a =? 0) = true -> finite_vec t = true -> finite_vec p = true ->
  coincide (np.add p (np.mul t a)) p = true.
Proof.
  unfold finite_vec, coincide, np.add, np.mul. cbn [fst snd].
  intros Ha Ht Hp.
  apply andb_prop in Ht. destruct Ht as [Ht1 Ht2].
  apply andb_prop in Hp. destruct Hp as [Hp1 Hp2].
  apply is_finite_not_nan in Hp1, Hp2.
  now rewrite !add_mul_zero.
Qed.

Lemma seg_len_not_neg (points : list vec2) : (seg_len points <? 0) = false.
Proof. unfold seg_len, np.norm. apply sqrt_not_neg. Qed.

(** C7 (as amended): for at least 3 points [generate_bezier] raises
    nothing and returns [P0; P0 + lt * a; P3 + rt * b; P3], with [P0] and
    [P3] the first and last point.  The offsets [(a, b)] are
    [(seg_len / 3, seg_len / 3)] when [alpha_l] or [alpha_r] is below
    [epsilon = 1e-6 * seg_len], which is the case whenever [|det C| < 1e-5]
    and [epsilon] is positive, and [(alpha_l, alpha_r)] otherwise.  When
    [epsilon] is not NaN neither offset is negative; when [epsilon] and
    [seg_len / 3] are positive each offset is positive or NaN.  An offset
    equal to zero along a finite tangent leaves a finite end point where it
    is: then [P1 == P0], respectively [P2 == P3]. *)
Theorem generate_bezier_control_points (points : list vec2) (u : list float)
    (lt rt : vec2) :
  (3 <= length points)%nat ->
  exists a b : float,
    getitem points 0 = Ok (hd (0, 0) points) /\
    getitem points (-1) = Ok (last points (0, 0)) /\
    generate_bezier points u lt rt =
    [hd (0, 0) points;
     np.add (hd (0, 0) points) (np.mul lt a);
     np.add (last points (0, 0)) (np.mul rt b);
     last points (0, 0)] /\
    (a, b) =
    (if (alpha_l (fit_equations points u lt rt)
         <? alpha_threshold * seg_len points)
        || (alpha_r (fit_equations points u lt rt)
            <? alpha_threshold * seg_len points)
     then (seg_len points / 3, seg_len points / 3)
     else (alpha_l (fit_equations points u lt rt),
           alpha_r (fit_equations points u lt rt))) /\
    ((abs (det_C0_C1 (fit_equations points u lt rt)) <? det_threshold) = true ->
     (0 <? alpha_threshold * seg_len points) = true ->
     (a, b) = (seg_len points / 3, seg_len points / 3)) /\
    (is_nan (alpha_threshold * seg_len points) = false ->
     (a <? 0) = false /\ (b <? 0) = false) /\
    ((0 <? alpha_threshold * seg_len points) = true ->
     (0 <? seg_len points / 3) = true ->
     ((0 <? a) = true \/ is_nan a = true) /\
     ((0 <? b) = true \/ is_nan b = true)) /\
    (finite_vec (hd (0, 0) points) = true -> finite_vec lt = true ->
     (a =? 0) = true ->
     coincide (np.add (hd (0, 0) points) (np.mul lt a)) (hd (0, 0) points)
     = true) /\
    (finite_vec (last points (0, 0)) = true -> finite_vec rt = true ->
     (b =? 0) = true ->
     coincide (np.add (last points (0, 0)) (np.mul rt b)) (last points (0, 0))
     = true).
Proof.
  intros Hlen.
  assert (Hne : points <> []) by (destruct points; simpl in *; [lia | congruence]).
  set (n := fit_equations points u lt rt).
  set (eps := alpha_threshold * seg_len points).
  assert (Hthird : (seg_len points / 3 <? 0) = false)
    by (apply div_not_neg; [apply seg_len_not_neg | reflexivity]).
  assert (Heps : (eps <? 0) = false)
    by (apply mul_not_neg; [reflexivity | apply seg_len_not_neg]).
  exists (if (alpha_l n <? eps) || (alpha_r n <? eps)
          then seg_len points / 3 else alpha_l n),
         (if (alpha_l n <? eps) || (alpha_r n <? eps)
          then seg_len points / 3 else alpha_r n).
  split; [now apply getitem_first|].
  split; [now apply getitem_last|].
  split; [|split; [|split; [|split; [|split; [|split]]]]].
  - unfold generate_bezier, chord_curve. fold n. fold eps.
    destruct ((alpha_l n <? eps) || (alpha_r n <? eps)); reflexivity.
  - destruct ((alpha_l n <? eps) || (alpha_r n <? eps)); reflexivity.
  - intros Hdet Hpos. unfold alpha_l. fold n. rewrite Hdet, Hpos.
    reflexivity.
  - intros Hnan.
    destruct ((alpha_l n <? eps) || (alpha_r n <? eps)) eqn:E;
      [now split|].
    apply orb_false_elim in E. destruct E as [El Er].
    split; eapply ltb_bound_not_neg; eauto.
  - intros Hpos Hthird'.
    destruct ((alpha_l n <? eps) || (alpha_r n <? eps)) eqn:E;
      [now split; left|].
    apply orb_false_elim in E. destruct E as [El Er]. split.
    + destruct (is_nan (alpha_l n)) eqn:En; [now right|]. left.
      exact (ltb_trans_not_ltb _ _ _ Hpos El En).
    + destruct (is_nan (alpha_r n)) eqn:En; [now right|]. left.
      exact (ltb_trans_not_ltb _ _ _ Hpos Er En).
  - intros Hp Ht Ha. now apply zero_offset_coincides.
  - intros Hp Ht Hb. now apply zero_offset_coincides.
Qed.

Lemma generate_bezier_control_points_witness :
  (3 <= length peak)%nat /\
  exists a b : float,
    generate_bezier peak [0; 0.5; 1] (1, 0) (-1, 0) =
    [(0, 0); np.add (0, 0) (np.mul (1, 0) a);
     np.add (2, 0) (np.mul (-1, 0) b); (2, 0)] /\
    (a, b) = (seg_len peak / 3, seg_len peak / 3) /\
    ((a <? 0) = false /\ (b <? 0) = false) /\
    (((0 <? a) = true \/ is_nan a = true) /\
     ((0 <? b) = true \/ is_nan b = true)).
Proof.
  assert (Hl : (3 <= length peak)%nat) by (simpl; lia).
  destruct (generate_bezier_control_points peak [0; 0.5; 1] (1, 0) (-1, 0) Hl)
    as (a & b & _ & _ & Hc & _ & Hdet & Hneg & Hpos & _).
  split; [exact Hl|]. exists a, b.
  exact (conj Hc
           (conj (Hdet ltac:(vm_compute; reflexivity)
                       ltac:(vm_compute; reflexivity))
                 (conj (Hneg ltac:(vm_compute; reflexivity))
                       (Hpos ltac:(vm_compute; reflexivity)
                             ltac:(vm_compute; reflexivity))))).
Defined.

(** C7 (as stated) fails: on the closed polyline (0,0), (1,0), (0,0), with
    the tangents and the parameterization [fit_bezier] computes for it,
    [det C] and the chord length are zero and all four control points are
    (0,0). *)
Lemma closed_polyline_coincident_control_points :
  (3 <= length closed)%nat /\
  tangents closed None None = Ok ((-1, 0), (-1, 0)) /\
  chord_length_parameterize closed = Ok [0; 0.5; 1] /\
  generate_bezier closed [0; 0.5; 1] (-1, 0) (-1, 0) =
  [(0, 0); (0, 0); (0, 0); (0, 0)].
Proof.
  split; [simpl; lia|].
  repeat split; vm_compute; reflexivity.
Qed.

(** ** Effects on the arrays *)

Lemma update_last (h : heap) (x y : ndarray) :
  update (h ++ [x]) (length h) y = h ++ [y].
Proof. induction h as [|z h IH]; simpl; [reflexivity | now rewrite IH]. Qed.

Lemma nth_error_snoc {A : Type} (h : list A) (x : A) :
  nth_error (h ++ [x]) (length h) = Some x.
Proof. rewrite nth_error_app2, Nat.sub_diag by lia. reflexivity. Qed.

Lemma nth_error_old {A : Type} (h : list A) (x y : A) (r : nat) :
  nth_error h r = Some y -> nth_error (h ++ [x]) r = Some y.
Proof.
  intros H. rewrite nth_error_app1; [exact H|].
  apply nth_error_Some. congruence.
Qed.

Lemma iadd_row_at_run (h : heap) (B : list vec2) (i : nat) (v : vec2) :
  iadd_row_at (length h) i v (h ++ [Arr2 B]) =
  Ok (tt, h ++ [Arr2 (iadd_row B i v)]).
Proof.
  unfold iadd_row_at, bindM, load2.
  rewrite nth_error_snoc, update_last. reflexivity.
Qed.

(** On the store, [generate_bezier] allocates one array, the curve it
    returns, and writes to that array only. *)
Lemma generate_bezier_obj_run (h : heap) (points u lt rt : ref)
    (P : list vec2) (U : list float) (l r : vec2) :
  nth_error h points = Some (Arr2 P) -> P <> [] ->
  nth_error h u = Some (Arr1 U) ->
  nth_error h lt = Some (Arr1 [fst l; snd l]) ->
  nth_error h rt = Some (Arr1 [fst r; snd r]) ->
  generate_bezier_obj points u lt rt h =
  Ok (length h, h ++ [Arr2 (generate_bezier P U l r)]).
Proof.
  intros HP Hne HU Hl Hr.
  unfold generate_bezier_obj, bindM at 1, load2 at 1. rewrite HP.
  unfold bindM at 1, lift at 1. rewrite (getitem_first P (0, 0) Hne).
  unfold bindM at 1, lift at 1. rewrite (getitem_last P (0, 0) Hne).
  unfold bindM at 1, alloc.
  unfold bindM at 1, load1 at 1. rewrite (nth_error_old _ _ _ _ HU).
  unfold bindM at 1, load_vec at 1, bindM at 1, load1 at 1.
  rewrite (nth_error_old _ _ _ _ Hl). unfold ret at 1.
  unfold bindM at 1, load_vec at 1, bindM at 1, load1 at 1.
  rewrite (nth_error_old _ _ _ _ Hr). unfold ret at 1.
  unfold bindM at 1, load2 at 1. rewrite nth_error_snoc.
  destruct l as [lx ly], r as [rx ry]. simpl fst. simpl snd.
  unfold generate_bezier, fit_equations, chord_curve.
  destruct ((alpha_l _ <? _) || (alpha_r _ <? _));
    unfold bindM; rewrite iadd_row_at_run; cbv beta iota;
    rewrite iadd_row_at_run; reflexivity.
Qed.

Lemma newton_raphson_root_find_obj_run (h : heap) (bez points u : ref)
    (B P : list vec2) (U : list float) :
  nth_error h bez = Some (Arr2 B) ->
  nth_error h points = Some (Arr2 P) ->
  nth_error h u = Some (Arr1 U) ->
  newton_raphson_root_find_obj bez points u h =
  Ok (length h, h ++ [Arr1 (newton_raphson_root_find B P U)]).
Proof.
  intros HB HP HU.
  unfold newton_raphson_root_find_obj, bindM, load2, load1, alloc.
  rewrite HB, HP, HU. reflexivity.
Qed.

(** C10: in a store holding the arguments, [generate_bezier] and
    [newton_raphson_root_find] return a new array and leave every array of
    the store as it was: the points, the parameterization, the tangents
    and the curve passed in are unchanged. *)
Theorem arguments_not_mutated (h : heap) (bez points u lt rt : ref)
    (B P : list vec2) (U : list float) (l r : vec2) :
  nth_error h bez = Some (Arr2 B) ->
  nth_error h points = Some (Arr2 P) -> P <> [] ->
  nth_error h u = Some (Arr1 U) ->
  nth_error h lt = Some (Arr1 [fst l; snd l]) ->
  nth_error h rt = Some (Arr1 [fst r; snd r]) ->
  (exists h',
     generate_bezier_obj points u lt rt h = Ok (length h, h') /\
     nth_error h' (length h) = Some (Arr2 (generate_bezier P U l r)) /\
     length h' = S (length h) /\
     forall a, (a < length h)%nat -> nth_error h' a = nth_error h a) /\
  (exists h',
     newton_raphson_root_find_obj bez points u h = Ok (length h, h') /\
     nth_error h' (length h) = Some (Arr1 (newton_raphson_root_find B P U)) /\
     length h' = S (length h) /\
     forall a, (a < length h)%nat -> nth_error h' a = nth_error h a).
Proof.
  intros HB HP Hne HU Hl Hr. split.
  - exists (h ++ [Arr2 (generate_bezier P U l r)]).
    split; [now apply generate_bezier_obj_run|].
    split; [apply nth_error_snoc|].
    split; [rewrite length_app; simpl; lia|].
    intros a Ha. now apply nth_error_app1.
  - exists (h ++ [Arr1 (newton_raphson_root_find B P U)]).
    split; [now apply newton_raphson_root_find_obj_run|].
    split; [apply nth_error_snoc|].
    split; [rewrite length_app; simpl; lia|].
    intros a Ha. now apply nth_error_app1.
Qed.

Lemma arguments_not_mutated_witness :
  (exists h',
     generate_bezier_obj 1%nat 2%nat 3%nat 4%nat example_store
     = Ok (length example_store, h') /\
     nth_error h' (length example_store)
     = Some (Arr2 (generate_bezier peak [0; 0.5; 1] (1, 0) (-1, 0))) /\
     length h' = S (length example_store) /\
     forall a, (a < length example_store)%nat ->
               nth_error h' a = nth_error example_store a) /\
  (exists h',
     newton_raphson_root_find_obj 0%nat 1%nat 2%nat example_store
     = Ok (length example_store, h') /\
     nth_error h' (length example_store)
     = Some (Arr1 (newton_raphson_root_find line peak [0; 0.5; 1])) /\
     length h' = S (length example_store) /\
     forall a, (a < length example_store)%nat ->
               nth_error h' a = nth_error example_store a).
Proof.
  exact (arguments_not_mutated example_store 0%nat 1%nat 2%nat 3%nat 4%nat
           line peak [0; 0.5; 1] (1, 0) (-1, 0)
           eq_refl eq_refl ltac:(discriminate) eq_refl eq_refl eq_refl).
Defined.

(** ** Termination and end points of the driver *)

Lemma bind_not_OutOfFuel {A B : Type} (r : result A) (k : A -> result B) :
  r <> OutOfFuel -> (forall a, r = Ok a -> k a <> OutOfFuel) ->
  bind r k <> OutOfFuel.
Proof. destruct r; simpl; intros H1 H2; [now apply H2 | discriminate | congruence]. Qed.

Lemma getitem_not_OutOfFuel {A : Type} (a : list A) (i : Z) :
  getitem a i <> OutOfFuel.
Proof.
  unfold getitem. destruct (_ || _)%bool; [discriminate|].
  destruct (nth_error _ _); discriminate.
Qed.

Lemma getitem_In {A : Type} (a : list A) (i : Z) (x : A) :
  getitem a i = Ok x -> In x a.
Proof.
  unfold getitem. destruct (_ || _)%bool; [discriminate|].
  destruct (nth_error _ _) eqn:E; [|discriminate].
  intros H. inversion H; subst. eapply nth_error_In; eauto.
Qed.

Lemma getitem_nat_Ok {A : Type} (a : list A) (i : nat) (x : A) :
  getitem a (Z.of_nat i + 1) = Ok x -> (S i < length a)%nat.
Proof.
  unfold getitem.
  destruct (Z.ltb_spec (Z.of_nat i + 1) 0); [lia|].
  destruct (Z.ltb_spec (Z.of_nat i + 1) 0); [lia|].
  destruct (Z.leb_spec (Z.of_nat (length a)) (Z.of_nat i + 1));
    [discriminate | lia].
Qed.

(** Case analysis on every indexing of the goal: a value or [IndexError]. *)
Ltac case_getitem :=
  repeat match goal with
         | |- context [getitem ?a ?i] =>
             let E := fresh "E" in
             destruct (getitem a i) eqn:E;
             [ | | exfalso; exact (getitem_not_OutOfFuel _ _ E)]
         end.

Lemma tangents_not_OutOfFuel (points : list vec2) (left right : option vec2) :
  tangents points left right <> OutOfFuel.
Proof.
  unfold tangents, l_vecs, r_vecs.
  destruct left, right; simpl; try discriminate;
    case_getitem; simpl; discriminate.
Qed.

Lemma two_point_curve_not_OutOfFuel (points : list vec2) (lt rt : vec2) :
  two_point_curve points lt rt <> OutOfFuel.
Proof. unfold two_point_curve. case_getitem; simpl; discriminate. Qed.

Lemma fit_loop_not_OutOfFuel {L : Libm} (points : list vec2) (max_err : float)
    (lt rt : vec2) :
  fit_loop points max_err lt rt <> OutOfFuel.
Proof.
  unfold fit_loop, chord_length_parameterize.
  destruct (np.cumsum _); simpl; [discriminate|].
  apply refine_not_OutOfFuel.
Qed.

(** The recursion of [fit_bezier] is never deeper than the number of
    points: a budget of that size is never exhausted. *)
Lemma fit_bezier_terminates {L : Libm} (fuel : nat) :
  forall (points : list vec2) (max_err : float) (left right : option vec2),
    (length points <= fuel)%nat -> (0 < fuel)%nat ->
    fit_bezier fuel points max_err left right <> OutOfFuel.
Proof.
  induction fuel as [|fuel IH]; intros points max_err left right Hlen Hpos;
    [lia|].
  simpl. apply bind_not_OutOfFuel; [apply tangents_not_OutOfFuel|].
  intros [lt rt] Ht. simpl.
  destruct (length points =? 2)%nat eqn:E2.
  - apply bind_not_OutOfFuel; [apply two_point_curve_not_OutOfFuel|].
    discriminate.
  - apply bind_not_OutOfFuel; [apply fit_loop_not_OutOfFuel|].
    intros [[bez|sp] n] Hf; simpl; [discriminate|].
    unfold subdivide.
    apply bind_not_OutOfFuel; [apply getitem_not_OutOfFuel|]. intros a Ha.
    apply bind_not_OutOfFuel; [apply getitem_not_OutOfFuel|]. intros b Hb.
    apply getitem_nat_Ok in Hb.
    assert (Hl : length (firstn (S sp) points) = S sp)
      by (rewrite length_firstn; lia).
    apply bind_not_OutOfFuel.
    + apply IH; lia.
    + intros l Hleft.
      apply bind_not_OutOfFuel; [|discriminate].
      destruct sp as [|sp].
      * destruct points as [|p points]; [simpl in Hb; lia|].
        destruct fuel as [|fuel]; [simpl in *; lia|].
        simpl firstn in Hleft. rewrite fit_one_point_raises in Hleft.
        discriminate.
      * apply IH; [rewrite length_skipn; lia | lia].
Qed.

(** The curve of a converged loop is a generated one. *)
Lemma refine_Converged {L : Libm} (remaining : nat) (points : list vec2) (max_err : float)
    (lt rt : vec2) :
  forall u bez n,
    refine remaining points max_err lt rt u = Ok (Converged bez, n) ->
    exists u', bez = generate_bezier points u' lt rt.
Proof.
  induction remaining as [|r IH]; intros u bez n H;
    destruct (fit_iteration points lt rt u) as [[[b sp] err]| |] eqn:Ei;
    try (unfold refine in H; rewrite Ei in H; discriminate);
    rewrite (refine_step _ _ _ _ _ _ _ _ _ Ei) in H;
    destruct (fit_iteration_Ok _ _ _ _ _ _ _ Ei) as [Hb _];
    (destruct (err <? max_err);
     [inversion H; subst; eauto|]);
    (apply bind_Ok in H; destruct H as [squared [_ H]]);
    (destruct (squared <? err); [discriminate|]);
    try discriminate.
  apply bind_Ok in H. destruct H as [[e n'] [Hr H]].
  simpl in H. inversion H; subst. eapply IH; eauto.
Qed.

(** A generated curve has four control points; the outer two are the first
    and the last point. *)
Lemma generate_bezier_shape (points : list vec2) (u : list float) (lt rt : vec2) :
  exists p1 p2,
    generate_bezier points u lt rt =
    [hd (0, 0) points; p1; p2; last points (0, 0)].
Proof.
  unfold generate_bezier, chord_curve.
  destruct (_ || _)%bool; simpl; eauto.
Qed.

Lemma hd_In (points : list vec2) : points <> [] -> In (hd (0, 0) points) points.
Proof. destruct points; [congruence | simpl; auto]. Qed.

Lemma last_In (points : list vec2) : points <> [] -> In (last points (0, 0)) points.
Proof.
  intros H. destruct (exists_last H) as [l [x ->]].
  rewrite last_last. apply in_or_app. right. simpl. auto.
Qed.

Lemma In_firstn {A : Type} (n : nat) (l : list A) (x : A) :
  In x (firstn n l) -> In x l.
Proof. intros H. rewrite <- (firstn_skipn n l). apply in_or_app. auto. Qed.

Lemma In_skipn {A : Type} (n : nat) (l : list A) (x : A) :
  In x (skipn n l) -> In x l.
Proof. intros H. rewrite <- (firstn_skipn n l). apply in_or_app. auto. Qed.

Lemma ends_on_incl (sub points : list vec2) (c : curve) :
  (forall x, In x sub -> In x points) -> ends_on sub c -> ends_on points c.
Proof.
  intros Hs (p0 & p1 & p2 & p3 & Hc & H0 & H3).
  exists p0, p1, p2, p3. auto.
Qed.

(** Whenever [fit_bezier] returns, it returns a non-empty sequence of
    four-point curves whose first and last control points are points of
    the input. *)
Lemma fit_bezier_ends {L : Libm} (fuel : nat) :
  forall (points : list vec2) (max_err : float) (left right : option vec2)
         (curves : list curve),
    fit_bezier fuel points max_err left right = Ok curves ->
    curves <> [] /\ Forall (ends_on points) curves.
Proof.
  induction fuel as [|fuel IH]; intros points max_err left right curves H;
    [discriminate|].
  simpl in H. apply bind_Ok in H. destruct H as [[lt rt] [Ht H]]. simpl in H.
  destruct (length points =? 2)%nat eqn:E2.
  - apply bind_Ok in H. destruct H as [c [Hc H]]. inversion H; subst; clear H.
    unfold two_point_curve in Hc.
    apply bind_Ok in Hc. destruct Hc as [p0 [H0 Hc]].
    apply bind_Ok in Hc. destruct Hc as [p1 [H1 Hc]].
    inversion Hc; subst; clear Hc.
    split; [discriminate|]. constructor; [|constructor].
    do 4 eexists. split; [reflexivity|].
    split; eapply getitem_In; eauto.
  - apply bind_Ok in H. destruct H as [[e n] [Hf H]]. simpl in H.
    assert (Hne : points <> []).
    { unfold fit_loop in Hf. apply bind_Ok in Hf. destruct Hf as [u0 [Hu _]].
      apply chord_length_parameterize_Ok in Hu.
      destruct points; simpl in *; [lia | congruence]. }
    destruct e as [bez|sp].
    + inversion H; subst; clear H. split; [discriminate|].
      constructor; [|constructor].
      unfold fit_loop in Hf. apply bind_Ok in Hf. destruct Hf as [u0 [_ Hr]].
      apply refine_Converged in Hr. destruct Hr as [u' ->].
      destruct (generate_bezier_shape points u' lt rt) as (p1 & p2 & ->).
      do 4 eexists. split; [reflexivity|].
      split; [now apply hd_In | now apply last_In].
    + unfold subdivide in H.
      apply bind_Ok in H. destruct H as [a [_ H]].
      apply bind_Ok in H. destruct H as [b [_ H]].
      apply bind_Ok in H. destruct H as [l [Hl H]].
      apply bind_Ok in H. destruct H as [r [Hr H]].
      inversion H; subst; clear H.
      apply IH in Hl. apply IH in Hr.
      destruct Hl as [Hln Hlf], Hr as [Hrn Hrf]. split.
      * destruct l; [congruence | discriminate].
      * apply Forall_app. split.
        -- eapply Forall_impl; [|exact Hlf].
           intros c. apply ends_on_incl. apply In_firstn.
        -- eapply Forall_impl; [|exact Hrf].
           intros c. apply ends_on_incl. apply In_skipn.
Qed.

(** ** The driver on coincident points, continued *)

(** C5 (code): on three coincident points the loop ends after 32 iterations
    with [split_point = 0]: the left recursive call receives one point and
    the right one receives the whole range.  In general the split point is
    an index of the range, and nothing more. *)
Theorem coincident_split_at_first_index {L : Libm} :
  fit_loop coincident 1 (0, 0) (0, 0) = Ok (Failed 0, 32%nat) /\
  firstn 1 coincident = [(0, 0)] /\
  skipn 0 coincident = coincident /\
  (forall points lt rt u bez sp err,
     fit_iteration points lt rt u = Ok (bez, sp, err) ->
     (sp < length points)%nat).
Proof.
  split; [vm_compute; reflexivity|].
  split; [reflexivity|]. split; [reflexivity|].
  intros points lt rt u bez sp err H.
  now destruct (fit_iteration_Ok _ _ _ _ _ _ _ H).
Qed.

(** C6 (code): on three coincident points [fit_bezier] raises [TypeError].
    The recursion itself always ends: a budget of as many calls as there
    are points is never exhausted. *)
Theorem fit_coincident_raises {L : Libm} :
  (forall fuel, fit_bezier (S (S fuel)) coincident 1 None None
                = Raise TypeError) /\
  (forall points max_err left right,
     fit_bezier (S (length points)) points max_err left right <> OutOfFuel).
Proof.
  split.
  - intros fuel. vm_compute. reflexivity.
  - intros points max_err left right. apply fit_bezier_terminates; lia.
Qed.

(** C8 (code): on three coincident points no recursion budget makes
    [fit_bezier] return a sequence of curves.  Whenever it does return, the
    sequence is not empty and each curve has four control points, the first
    and the last of them points of the input. *)
Theorem fit_coincident_returns_nothing {L : Libm} :
  (forall fuel,
     match fit_bezier fuel coincident 1 None None with
     | Ok _ => False
     | _ => True
     end) /\
  (forall fuel points max_err left right curves,
     fit_bezier fuel points max_err left right = Ok curves ->
     curves <> [] /\ Forall (ends_on points) curves).
Proof.
  split.
  - intros fuel. destruct fuel as [|[|fuel]]; vm_compute; exact I.
  - intros fuel points max_err left right curves. apply fit_bezier_ends.
Qed.

(** * Further properties *)

(** ** The maximum that [argmax] finds *)

Lemma argmax_scan_max (l : list float) :
  forall (pre : list float) (mp : float) (best : nat),
    nth_error (pre ++ l) best = Some mp ->
    is_nan mp = false ->
    Forall (fun x => (x <=? mp) = true) pre ->
    exists e,
      nth_error (pre ++ l) (np.argmax_scan mp best (length pre) l) = Some e /\
      (is_nan e = false -> Forall (fun x => (x <=? e) = true) (pre ++ l)).
Proof.
  induction l as [|x l IH]; intros pre mp best Hb Hn Hpre; simpl.
  - exists mp. split; [exact Hb|]. intros _. now rewrite app_nil_r.
  - assert (Happ : pre ++ x :: l = (pre ++ [x]) ++ l)
      by now rewrite <- app_assoc.
    assert (HS : S (length pre) = length (pre ++ [x]))
      by (rewrite length_app; simpl; lia).
    destruct (x <=? mp) eqn:Ele.
    + rewrite Happ, HS. apply IH; [now rewrite <- Happ | exact Hn |].
      apply Forall_app. split; [exact Hpre|]. now constructor.
    + destruct (is_nan x) eqn:Ex.
      * exists x. split.
        -- rewrite nth_error_app2 by lia. now rewrite Nat.sub_diag.
        -- congruence.
      * rewrite Happ, HS. apply IH.
        -- rewrite <- Happ, nth_error_app2 by lia. now rewrite Nat.sub_diag.
        -- exact Ex.
        -- apply Forall_app. split.
           ++ eapply Forall_impl; [|exact Hpre]. simpl. intros y Hy.
              now apply (leb_trans_not_leb y mp x).
           ++ constructor; [now apply leb_refl_not_nan | constructor].
Qed.

Lemma argmax_max (l : list float) (i : nat) (e : float) :
  np.argmax l = Ok i -> nth_error l i = Some e -> is_nan e = false ->
  Forall (fun x => (x <=? e) = true) l.
Proof.
  destruct l as [|x l]; simpl; [discriminate|].
  intros H Hi He. inversion H; subst; clear H.
  destruct (is_nan x) eqn:Ex.
  - simpl in Hi. congruence.
  - destruct (argmax_scan_max l [x] x 0%nat) as [e' [H1 H2]].
    + reflexivity.
    + exact Ex.
    + constructor; [now apply leb_refl_not_nan | constructor].
    + simpl length in H1. simpl app in *. rewrite Hi in H1.
      inversion H1; subst. now apply H2.
Qed.

Lemma getitem_nat_nth {A : Type} (a : list A) (i : nat) (x : A) :
  getitem a (Z.of_nat i) = Ok x -> nth_error a i = Some x.
Proof.
  intros H. destruct (Nat.lt_ge_cases i (length a)) as [Hlt|Hge].
  - destruct (getitem_nat a i Hlt) as [y [H1 H2]]. congruence.
  - unfold getitem in H.
    destruct (Z.ltb_spec (Z.of_nat i) 0); [lia|].
    destruct (Z.ltb_spec (Z.of_nat i) 0); [lia|].
    destruct (Z.leb_spec (Z.of_nat (length a)) (Z.of_nat i)); [|lia].
    discriminate.
Qed.

(** An iteration whose maximal error is below the tolerance has every
    error below it. *)
Lemma fit_iteration_below (points : list vec2) (lt rt : vec2) (u : list float)
    (bez : curve) (sp : nat) (err max_err : float) :
  fit_iteration points lt rt u = Ok (bez, sp, err) ->
  (err <? max_err) = true ->
  all_below max_err (sq_errors bez points u).
Proof.
  intros H Hlt. pose proof (fit_iteration_Ok _ _ _ _ _ _ _ H) as [Hb _].
  unfold fit_iteration in H.
  apply bind_Ok in H. destruct H as [sp' [Hsp H]].
  apply bind_Ok in H. destruct H as [err' [Hg H]].
  inversion H; subst sp' err'. rewrite <- H1 in *. clear H.
  apply getitem_nat_nth in Hg.
  pose proof (argmax_max _ _ _ Hsp Hg (ltb_not_nan _ _ Hlt)) as Hmax.
  unfold all_below. eapply Forall_impl; [|exact Hmax].
  simpl. intros x Hx. now apply (leb_ltb_trans x err max_err).
Qed.

Lemma newton_raphson_root_find_length (bez : curve) (points : list vec2)
    (u : list float) :
  length (newton_raphson_root_find bez points u)
  = Nat.min (length points) (length u).
Proof.
  unfold newton_raphson_root_find. now rewrite length_map, length_combine.
Qed.

Lemma refine_Converged_within {L : Libm} (remaining : nat) (points : list vec2)
    (max_err : float) (lt rt : vec2) :
  forall u bez n,
    length u = length points ->
    refine remaining points max_err lt rt u = Ok (Converged bez, n) ->
    exists u', length u' = length points /\
               bez = generate_bezier points u' lt rt /\
               all_below max_err (sq_errors bez points u').
Proof.
  induction remaining as [|r IH]; intros u bez n Hlen H;
    destruct (fit_iteration points lt rt u) as [[[b sp] err]| |] eqn:Ei;
    try (unfold refine in H; rewrite Ei in H; discriminate);
    rewrite (refine_step _ _ _ _ _ _ _ _ _ Ei) in H;
    destruct (fit_iteration_Ok _ _ _ _ _ _ _ Ei) as [Hb _];
    (destruct (err <? max_err) eqn:Elt;
     [inversion H; subst bez; exists u;
      split; [exact Hlen | split; [exact Hb |
        exact (fit_iteration_below _ _ _ _ _ _ _ _ Ei Elt)]]|]);
    (apply bind_Ok in H; destruct H as [squared [_ H]]);
    (destruct (squared <? err); [discriminate|]);
    try discriminate.
  apply bind_Ok in H. destruct H as [[e n'] [Hr H]].
  simpl in H. inversion H; subst.
  eapply IH; [|exact Hr].
  rewrite newton_raphson_root_find_length. lia.
Qed.

Lemma refine_Failed {L : Libm} (remaining : nat) (points : list vec2)
    (max_err : float) (lt rt : vec2) :
  forall u sp n,
    refine remaining points max_err lt rt u = Ok (Failed sp, n) ->
    (sp < length points)%nat.
Proof.
  induction remaining as [|r IH]; intros u sp' n H;
    destruct (fit_iteration points lt rt u) as [[[b sp] err]| |] eqn:Ei;
    try (unfold refine in H; rewrite Ei in H; discriminate);
    rewrite (refine_step _ _ _ _ _ _ _ _ _ Ei) in H;
    destruct (fit_iteration_Ok _ _ _ _ _ _ _ Ei) as [_ Hb];
    (destruct (err <? max_err) eqn:Elt; [discriminate|]);
    (apply bind_Ok in H; destruct H as [squared [_ H]]);
    (destruct (squared <? err);
     [inversion H; subst; exact Hb|]);
    try (inversion H; subst; exact Hb).
  apply bind_Ok in H. destruct H as [[e n'] [Hr H]].
  simpl in H. inversion H; subst.
  eapply IH; exact Hr.
Qed.

(** ** What the driver returns *)

Lemma fit_loop_Ok {L : Libm} (points : list vec2) (max_err : float)
    (lt rt : vec2) (e : loop_exit) (n : nat) :
  fit_loop points max_err lt rt = Ok (e, n) ->
  (2 <= length points)%nat /\
  match e with
  | Converged bez => fits_within max_err points bez
  | Failed sp => (sp < length points)%nat
  end.
Proof.
  unfold fit_loop. intros H. apply bind_Ok in H.
  destruct H as [u0 [Hu H]]. apply chord_length_parameterize_Ok in Hu.
  destruct Hu as [H2 Hlen]. split; [exact H2|].
  destruct e as [bez|sp].
  - destruct (refine_Converged_within _ _ _ _ _ _ _ _ Hlen H)
      as (u & H1 & H3 & H4).
    exists lt, rt, u. auto.
  - now apply (refine_Failed _ _ _ _ _ _ _ _ H).
Qed.

Lemma contiguous_refl (points : list vec2) : contiguous points points.
Proof. exists [], []. now rewrite app_nil_r. Qed.

Lemma contiguous_firstn (n : nat) (pts points : list vec2) :
  contiguous pts (firstn n points) -> contiguous pts points.
Proof.
  intros (b & a & H). exists b, (a ++ skipn n points).
  rewrite <- (firstn_skipn n points) at 1. rewrite H.
  now rewrite <- !app_assoc.
Qed.

Lemma contiguous_skipn (n : nat) (pts points : list vec2) :
  contiguous pts (skipn n points) -> contiguous pts points.
Proof.
  intros (b & a & H). exists (firstn n points ++ b), a.
  rewrite <- (firstn_skipn n points) at 1. rewrite H.
  now rewrite <- !app_assoc.
Qed.

(** The parts of a successful call of [fit_bezier]. *)
Lemma fit_bezier_Ok {L : Libm} (fuel : nat) (points : list vec2) (max_err : float)
    (left right : option vec2) (curves : list curve) :
  fit_bezier (S fuel) points max_err left right = Ok curves ->
  exists lt rt,
    tangents points left right = Ok (lt, rt) /\
    ((length points = 2%nat /\
      exists c, two_point_curve points lt rt = Ok c /\ curves = [c]) \/
     (3 <= length points)%nat /\
     ((exists n bez, fit_loop points max_err lt rt = Ok (Converged bez, n) /\
                     fits_within max_err points bez /\ curves = [bez]) \/
      (exists n sp l r,
         fit_loop points max_err lt rt = Ok (Failed sp, n) /\
         (S sp < length points)%nat /\
         (exists ct,
            fit_bezier fuel (firstn (S sp) points) max_err
              (Some lt) (Some ct) = Ok l /\
            fit_bezier fuel (skipn sp points) max_err
              (Some (np.neg ct)) (Some rt) = Ok r) /\
         curves = l ++ r))).
Proof.
  intros H. simpl in H. apply bind_Ok in H.
  destruct H as [[lt rt] [Ht H]]. simpl in H.
  exists lt, rt. split; [exact Ht|].
  destruct (length points =? 2)%nat eqn:E2.
  - left. apply Nat.eqb_eq in E2. split; [exact E2|].
    apply bind_Ok in H. destruct H as [c [Hc H]]. inversion H. eauto.
  - right. apply Nat.eqb_neq in E2.
    apply bind_Ok in H. destruct H as [[e n] [Hf H]]. simpl in H.
    destruct (fit_loop_Ok _ _ _ _ _ _ Hf) as [H2 He].
    split; [lia|].
    destruct e as [bez|sp].
    + left. inversion H. eauto 6.
    + right. unfold subdivide in H.
      apply bind_Ok in H. destruct H as [a [Ha H]].
      apply bind_Ok in H. destruct H as [b [Hb H]].
      apply bind_Ok in H. destruct H as [l [Hl H]].
      apply bind_Ok in H. destruct H as [r [Hr H]].
      inversion H; subst; clear H.
      pose proof (getitem_nat_Ok _ _ _ Hb) as Hsp.
      exists n, sp, l, r. split; [exact Hf|]. split; [exact Hsp|].
      split; [eauto | reflexivity].
Qed.

(** The end points of a range cut at [sp]. *)
Lemma hd_firstn_S (sp : nat) (points : list vec2) (d : vec2) :
  hd d (firstn (S sp) points) = hd d points.
Proof. destruct points; reflexivity. Qed.

Lemma hd_skipn (sp : nat) (points : list vec2) (d : vec2) :
  hd d (skipn sp points) = nth sp points d.
Proof.
  revert points. induction sp as [|sp IH]; intros [|p points]; simpl;
    try reflexivity. apply IH.
Qed.

Lemma last_firstn_S (sp : nat) (points : list vec2) (d : vec2) :
  (sp < length points)%nat ->
  last (firstn (S sp) points) d = nth sp points d.
Proof.
  revert points. induction sp as [|sp IH]; intros [|p points] H;
    simpl in H; try lia.
  - reflexivity.
  - specialize (IH points ltac:(lia)).
    change (firstn (S (S sp)) (p :: points))
      with (p :: firstn (S sp) points).
    destruct points as [|p' points]; [simpl in H; lia|].
    change (firstn (S sp) (p' :: points)) with (p' :: firstn sp points) in *.
    exact IH.
Qed.

Lemma last_skipn (sp : nat) (points : list vec2) (d : vec2) :
  (sp < length points)%nat -> last (skipn sp points) d = last points d.
Proof.
  revert points. induction sp as [|sp IH]; intros [|p points] H;
    simpl in H; try lia; try reflexivity.
  simpl skipn. rewrite IH by lia.
  destruct points; [simpl in H; lia | reflexivity].
Qed.

Lemma chained_app (a e b : vec2) (l r : list curve) :
  chained a e l -> chained e b r -> chained a b (l ++ r).
Proof.
  revert a. induction l as [|c l IH]; intros a Hl Hr; simpl in *.
  - now subst.
  - destruct Hl as (p1 & p2 & e' & Hc & Hl). exists p1, p2, e'. auto.
Qed.

Lemma fits_within_shape (max_err : float) (pts : list vec2) (c : curve) :
  fits_within max_err pts c ->
  exists p1 p2, c = [hd (0, 0) pts; p1; p2; last pts (0, 0)].
Proof.
  intros (lt & rt & u & _ & -> & _). apply generate_bezier_shape.
Qed.

Lemma two_point_curve_shape (pts : list vec2) (lt rt : vec2) (c : curve) :
  two_point_curve pts lt rt = Ok c -> length pts = 2%nat ->
  exists p1 p2, c = [hd (0, 0) pts; p1; p2; last pts (0, 0)].
Proof.
  destruct pts as [|p0 [|p1 [|p2 pts]]]; simpl; try discriminate.
  intros H _. vm_compute in H. inversion H. eauto.
Qed.

(** Every curve [fit_bezier] returns belongs to a run of consecutive
    points of the input: it is the two-point heuristic on a run of two
    points, or a curve of [generate_bezier] on the run, for a
    parameterization at which every point of the run is at a squared
    distance below [max_err] from the curve. *)
Theorem fit_bezier_curves_within_tolerance {L : Libm} (fuel : nat) :
  forall (points : list vec2) (max_err : float) (left right : option vec2)
         (curves : list curve),
    fit_bezier fuel points max_err left right = Ok curves ->
    Forall (fun c => exists pts,
              contiguous pts points /\
              (two_point_fit pts c \/ fits_within max_err pts c)) curves.
Proof.
  induction fuel as [|fuel IH]; intros points max_err left right curves H;
    [discriminate|].
  apply fit_bezier_Ok in H.
  destruct H as (lt & rt & Ht &
                 [[H2 (c & Hc & ->)] |
                  [H3 [(n & bez & Hf & Hw & ->) |
                       (n & sp & l & r & Hf & Hsp & (ct & Hl & Hr) & ->)]]]).
  - constructor; [|constructor]. exists points.
    split; [apply contiguous_refl|]. left. exists lt, rt. auto.
  - constructor; [|constructor]. exists points.
    split; [apply contiguous_refl|]. now right.
  - apply Forall_app. split.
    + eapply Forall_impl; [|exact (IH _ _ _ _ _ Hl)].
      intros c (pts & Hp & Hc). exists pts. split; [|exact Hc].
      now apply contiguous_firstn in Hp.
    + eapply Forall_impl; [|exact (IH _ _ _ _ _ Hr)].
      intros c (pts & Hp & Hc). exists pts. split; [|exact Hc].
      now apply contiguous_skipn in Hp.
Qed.

Lemma fit_bezier_curves_within_tolerance_witness :
  exists curves,
    fit_bezier (L := rounded_pow) 4 arch 0.5 None None = Ok curves /\
    Forall (fun c => exists pts,
              contiguous pts arch /\
              (two_point_fit pts c \/ fits_within 0.5 pts c)) curves.
Proof.
  assert (H : exists curves, fit_bezier (L := rounded_pow) 4 arch 0.5 None None = Ok curves)
    by (vm_compute; eexists; reflexivity).
  destruct H as [curves H]. exists curves.
  exact (conj H (fit_bezier_curves_within_tolerance (L := rounded_pow) 4 arch 0.5 None None
                   curves H)).
Defined.

(** The curves [fit_bezier] returns are joined end to end: the first
    starts at [points[0]], each next one starts at the last control point of
    the one before, and the last ends at [points[-1]]. *)
Theorem fit_bezier_curves_chained {L : Libm} (fuel : nat) :
  forall (points : list vec2) (max_err : float) (left right : option vec2)
         (curves : list curve),
    fit_bezier fuel points max_err left right = Ok curves ->
    curves <> [] /\
    chained (hd (0, 0) points) (last points (0, 0)) curves.
Proof.
  induction fuel as [|fuel IH]; intros points max_err left right curves H;
    [discriminate|].
  apply fit_bezier_Ok in H.
  destruct H as (lt & rt & Ht &
                 [[H2 (c & Hc & ->)] |
                  [H3 [(n & bez & Hf & Hw & ->) |
                       (n & sp & l & r & Hf & Hsp & (ct & Hl & Hr) & ->)]]]).
  - split; [discriminate|].
    destruct (two_point_curve_shape _ _ _ _ Hc H2) as (p1 & p2 & ->).
    simpl. eauto.
  - split; [discriminate|].
    destruct (fits_within_shape _ _ _ Hw) as (p1 & p2 & ->).
    simpl. eauto.
  - apply IH in Hl. apply IH in Hr.
    destruct Hl as [Hln Hl], Hr as [Hrn Hr]. split.
    + destruct l; [congruence | discriminate].
    + rewrite hd_firstn_S, last_firstn_S in Hl by lia.
      rewrite hd_skipn, last_skipn in Hr by lia.
      exact (chained_app _ _ _ _ _ Hl Hr).
Qed.

Lemma fit_bezier_curves_chained_witness :
  exists curves,
    fit_bezier (L := rounded_pow) 4 arch 0.5 None None = Ok curves /\
    curves <> [] /\
    chained (hd (0, 0) arch) (last arch (0, 0)) curves.
Proof.
  assert (H : exists curves, fit_bezier (L := rounded_pow) 4 arch 0.5 None None = Ok curves)
    by (vm_compute; eexists; reflexivity).
  destruct H as [curves H]. exists curves.
  exact (conj H (fit_bezier_curves_chained (L := rounded_pow) 4 arch 0.5 None None curves H)).
Defined.

(** [fit_bezier] returns only for at least two points, and then at least
    one curve and at most one curve per pair of neighbouring points. *)
Theorem fit_bezier_curve_count {L : Libm} (fuel : nat) :
  forall (points : list vec2) (max_err : float) (left right : option vec2)
         (curves : list curve),
    fit_bezier fuel points max_err left right = Ok curves ->
    (2 <= length points)%nat /\
    (1 <= length curves <= length points - 1)%nat.
Proof.
  induction fuel as [|fuel IH]; intros points max_err left right curves H;
    [discriminate|].
  apply fit_bezier_Ok in H.
  destruct H as (lt & rt & Ht &
                 [[H2 (c & Hc & ->)] |
                  [H3 [(n & bez & Hf & Hw & ->) |
                       (n & sp & l & r & Hf & Hsp & (ct & Hl & Hr) & ->)]]]).
  - simpl. lia.
  - simpl. lia.
  - apply IH in Hl. apply IH in Hr.
    rewrite length_firstn in Hl. rewrite length_skipn in Hr.
    rewrite length_app. lia.
Qed.

Lemma fit_bezier_curve_count_witness :
  exists curves,
    fit_bezier (L := rounded_pow) 4 arch 0.5 None None = Ok curves /\
    (2 <= length arch)%nat /\
    (1 <= length curves <= length arch - 1)%nat.
Proof.
  assert (H : exists curves, fit_bezier (L := rounded_pow) 4 arch 0.5 None None = Ok curves)
    by (vm_compute; eexists; reflexivity).
  destruct H as [curves H]. exists curves.
  exact (conj H (fit_bezier_curve_count (L := rounded_pow) 4 arch 0.5 None None curves H)).
Defined.

(** ** Tangents at the joints *)

Section SpecOpposite.
Import SpecFloat.

(** An offset that is not negative along the tangent -1 does not lead
    from 0 to 1. *)
Lemma SFadd_mul_opposite (a : spec_float) :
  SFltb a (S754_zero false) = false ->
  SF64add (S754_zero false) (SF64mul (Prim2SF (-1)) a) <> Prim2SF 1.
Proof.
  unfold SF64add, SF64mul. intros Ha.
  destruct a as [[|]|[|]| |[|] ma ea]; try discriminate Ha;
    try (vm_compute; discriminate).
  change (Prim2SF (-1)) with (S754_finite true 4503599627370496 (-52)).
  cbv [SFmul xorb].
  destruct (binary_round_aux_sign prec emax true
              (Z.pos (4503599627370496 * ma)) (-52 + ea) loc_Exact)
    as [-> | [-> | [-> | (m' & e' & ->)]]]; vm_compute; discriminate.
Qed.

End SpecOpposite.

Lemma add_mul_opposite (a : float) : (a <? 0) = false -> 0 + -1 * a <> 1.
Proof.
  rewrite ltb_spec. intros Ha E. apply (SFadd_mul_opposite _ Ha).
  rewrite <- E, add_spec, mul_spec. reflexivity.
Qed.

(** The direction of a tangent matters: [rightward] leaves its first
    control point along (1,0), not along the opposite tangent. *)
Lemma along_not_opposite :
  along (1, 0) (-1, 0) rightward /\
  ~ along (np.neg (1, 0)) (-1, 0) rightward.
Proof.
  split.
  - exists (0, 0), (4, 0), 1, 1. repeat split; vm_compute; reflexivity.
  - intros (p0 & p3 & a & b & Hc & Ha & _).
    unfold rightward in Hc. injection Hc as <- H1 _ _ _ _.
    symmetry in H1. exact (add_mul_opposite a Ha H1).
Qed.

Lemma mul_number (c x : float) :
  (0 <? c) = true -> is_finite c = true -> is_nan x = false ->
  is_nan (c * x) = false.
Proof.
  rewrite ltb_spec. intros Hc Hf Hx. apply is_finite_SF in Hf.
  rewrite is_nan_SFeqb in Hx. rewrite is_nan_SFeqb, mul_spec.
  now apply SFmul_number.
Qed.

Lemma Forall_hd_last {A : Type} (P : A -> Prop) (l : list A) (d : A) :
  Forall P l -> l <> [] -> P (hd d l) /\ P (last l d).
Proof.
  intros H Hne. split.
  - destruct l; [congruence|]. now inversion H.
  - induction l as [|x l IH]; [congruence|].
    inversion H; subst. destruct l as [|y l]; [assumption|].
    apply IH; [assumption | discriminate].
Qed.

Lemma Forall_firstn_skipn {A : Type} (P : A -> Prop) (n : nat) (l : list A) :
  Forall P l -> Forall P (firstn n l) /\ Forall P (skipn n l).
Proof.
  intros H. rewrite <- (firstn_skipn n l) in H. now apply Forall_app in H.
Qed.

(** The offsets of [generate_bezier] are not negative when the end points
    of the range are finite. *)
Lemma generate_bezier_along (points : list vec2) (u : list float)
    (lt rt : vec2) :
  Forall (fun p => finite_vec p = true) points -> points <> [] ->
  along lt rt (generate_bezier points u lt rt).
Proof.
  intros Hf Hne.
  destruct (Forall_hd_last _ points (0, 0) Hf Hne) as [Hh Hl].
  set (n := fit_equations points u lt rt).
  set (eps := alpha_threshold * seg_len points).
  assert (Hthird : (seg_len points / 3 <? 0) = false)
    by (apply div_not_neg; [apply seg_len_not_neg | reflexivity]).
  assert (Heps : (eps <? 0) = false)
    by (apply mul_not_neg; [reflexivity | apply seg_len_not_neg]).
  assert (Hnan : is_nan eps = false).
  { apply mul_number; [reflexivity | reflexivity |].
    now apply norm_sub_number. }
  unfold generate_bezier, chord_curve, along. fold n. fold eps.
  destruct ((alpha_l n <? eps) || (alpha_r n <? eps)) eqn:E.
  - exists (hd (0, 0) points), (last points (0, 0)),
           (seg_len points / 3), (seg_len points / 3). auto.
  - apply orb_false_elim in E. destruct E as [El Er].
    exists (hd (0, 0) points), (last points (0, 0)), (alpha_l n), (alpha_r n).
    split; [reflexivity|].
    split; eapply ltb_bound_not_neg; eauto.
Qed.

Lemma two_point_curve_along (points : list vec2) (lt rt : vec2) (c : curve) :
  two_point_curve points lt rt = Ok c -> along lt rt c.
Proof.
  unfold two_point_curve. intros H.
  apply bind_Ok in H. destruct H as [p0 [_ H]].
  apply bind_Ok in H. destruct H as [p1 [_ H]].
  inversion H. unfold along.
  assert (Hd : (np.norm (np.sub p0 p1) / 3 <? 0) = false)
    by (apply div_not_neg; [apply sqrt_not_neg | reflexivity]).
  eauto 8.
Qed.

Lemma smooth_app (lt ct rt : vec2) (l r : list curve) :
  smooth lt ct l -> smooth (np.neg ct) rt r -> smooth lt rt (l ++ r).
Proof.
  revert lt. induction l as [|c l IH]; intros lt Hl Hr; [contradiction|].
  destruct l as [|c' l].
  - simpl app. destruct r as [|c' r]; [contradiction|].
    exists ct. split; [exact Hl | exact Hr].
  - destruct Hl as (ct' & Hc & Hl).
    change ((c :: c' :: l) ++ r) with (c :: (c' :: l) ++ r).
    change (smooth lt rt (c :: c' :: l ++ r)).
    exists ct'. split; [exact Hc|]. exact (IH _ Hl Hr).
Qed.

(** The tangents at the joints of what [fit_bezier] returns for finite
    points: every curve is [p0; p0 + lt * a; p3 + rt * b; p3] for its two
    tangents and offsets [a], [b] that are not negative; the first curve has
    the left tangent of the call, the last the right one, and at every joint
    the curve after it has the negation of the tangent the curve before it
    has. *)
Theorem fit_bezier_joint_tangents {L : Libm} (fuel : nat) :
  forall (points : list vec2) (max_err : float) (left right : option vec2)
         (lt rt : vec2) (curves : list curve),
    Forall (fun p => finite_vec p = true) points ->
    tangents points left right = Ok (lt, rt) ->
    fit_bezier fuel points max_err left right = Ok curves ->
    smooth lt rt curves.
Proof.
  induction fuel as [|fuel IH];
    intros points max_err left right lt rt curves Hfin Ht H; [discriminate|].
  apply fit_bezier_Ok in H.
  destruct H as (lt' & rt' & Ht' &
                 [[H2 (c & Hc & ->)] |
                  [H3 [(n & bez & Hf & Hw & ->) |
                       (n & sp & l & r & Hf & Hsp & (ct & Hl & Hr) & ->)]]]);
    rewrite Ht in Ht'; inversion Ht'; subst lt' rt'; clear Ht'.
  - exact (two_point_curve_along _ _ _ _ Hc).
  - unfold fit_loop in Hf. apply bind_Ok in Hf. destruct Hf as [u0 [_ Hr]].
    apply refine_Converged in Hr. destruct Hr as [u' ->].
    apply generate_bezier_along; [exact Hfin|].
    destruct points; [simpl in H3; lia | discriminate].
  - apply (smooth_app lt ct rt).
    + exact (IH (firstn (S sp) points) max_err (Some lt) (Some ct) lt ct l
               (proj1 (Forall_firstn_skipn _ (S sp) points Hfin))
               eq_refl Hl).
    + exact (IH (skipn sp points) max_err (Some (np.neg ct)) (Some rt)
               (np.neg ct) rt r
               (proj2 (Forall_firstn_skipn _ sp points Hfin))
               eq_refl Hr).
Qed.

Lemma fit_bezier_joint_tangents_witness :
  exists lt rt curves,
    Forall (fun p => finite_vec p = true) arch /\
    tangents arch None None = Ok (lt, rt) /\
    fit_bezier (L := rounded_pow) 4 arch 0.5 None None = Ok curves /\
    (2 <= length curves)%nat /\
    smooth lt rt curves.
Proof.
  assert (Hfin : Forall (fun p => finite_vec p = true) arch)
    by (repeat constructor).
  assert (Ht : exists t, tangents arch None None = Ok t)
    by (vm_compute; eexists; reflexivity).
  assert (H : exists curves,
             fit_bezier (L := rounded_pow) 4 arch 0.5 None None = Ok curves /\
             (2 <= length curves)%nat)
    by (vm_compute; eexists; split; [reflexivity | simpl; lia]).
  destruct Ht as [[lt rt] Ht], H as [curves [H Hn]]. exists lt, rt, curves.
  exact (conj Hfin (conj Ht (conj H (conj Hn
           (fit_bezier_joint_tangents (L := rounded_pow) 4 arch 0.5 None None
              lt rt curves Hfin Ht H))))).
Defined.

(** ** NaN parameters *)

Lemma newton_step_nan (bez : curve) (p : vec2) : newton_step bez p nan = nan.
Proof. unfold newton_step. apply nan_add_l. Qed.

Lemma newton_raphson_root_find_nan (bez : curve) (points : list vec2)
    (u : list float) :
  all_nan u -> all_nan (newton_raphson_root_find bez points u).
Proof.
  unfold all_nan, newton_raphson_root_find. intros H.
  apply Forall_forall. intros x Hx. apply in_map_iff in Hx.
  destruct Hx as [[p ui] [<- Hin]]. apply in_combine_r in Hin.
  rewrite Forall_forall in H. apply H in Hin. apply is_nan_eq in Hin.
  simpl. subst ui. now rewrite newton_step_nan.
Qed.

(** A cubic evaluated at NaN is NaN in both coordinates. *)
Lemma evaluate_cubic_nan (a b c d : vec2) :
  bezier.evaluate [a; b; c; d] nan = (nan, nan).
Proof.
  unfold bezier.evaluate, np.add, np.scale. simpl fst. simpl snd.
  change (nan * nan * nan) with nan.
  now rewrite !nan_mul_l, !nan_add_r.
Qed.

(** With NaN parameters every iteration of the loop has a NaN error at
    index 0. *)
Lemma fit_iteration_nan (points : list vec2) (lt rt : vec2) (u : list float) :
  points <> [] -> length u = length points -> all_nan u ->
  fit_iteration points lt rt u
  = Ok (generate_bezier points u lt rt, 0%nat, nan).
Proof.
  intros Hne Hlen Hu. unfold fit_iteration.
  destruct (generate_bezier_shape points u lt rt) as (p1 & p2 & ->).
  destruct points as [|p0 points]; [congruence|].
  destruct u as [|u0 u]; [discriminate|].
  inversion Hu as [|? ? H0 _]; subst. apply is_nan_eq in H0. subst u0.
  unfold sq_errors, q, bezier.evaluate_multi.
  cbn [map combine]. rewrite evaluate_cubic_nan.
  unfold np.sub, np.dot. cbn [fst snd].
  rewrite !nan_sub_l, !nan_mul_l, nan_add_l.
  reflexivity.
Qed.

(** So the loop performs all its iterations and leaves with the split
    point 0, unless [max_err ** 2] raises in the first of them. *)
Lemma refine_nan {L : Libm} (remaining : nat) (points : list vec2)
    (max_err : float) (lt rt : vec2) (squared : float) :
  float_pow_2 max_err = Ok squared ->
  forall u,
    points <> [] -> length u = length points -> all_nan u ->
    refine remaining points max_err lt rt u
    = Ok (Failed 0, S remaining).
Proof.
  intros Hp.
  induction remaining as [|r IH]; intros u Hne Hlen Hu;
    rewrite (refine_step _ _ _ _ _ _ _ _ _
               (fit_iteration_nan points lt rt u Hne Hlen Hu));
    rewrite nan_ltb_l, Hp; cbn [bind]; rewrite nan_ltb_r; [reflexivity|].
  rewrite IH; [reflexivity | exact Hne | |].
  - rewrite newton_raphson_root_find_length. lia.
  - now apply newton_raphson_root_find_nan.
Qed.

Lemma refine_nan_raises {L : Libm} (remaining : nat) (points : list vec2)
    (max_err : float) (lt rt : vec2) (e : exn) (u : list float) :
  float_pow_2 max_err = Raise e ->
  points <> [] -> length u = length points -> all_nan u ->
  refine remaining points max_err lt rt u = Raise e.
Proof.
  intros Hp Hne Hlen Hu.
  rewrite (refine_step _ _ _ _ _ _ _ _ _
             (fit_iteration_nan points lt rt u Hne Hlen Hu)).
  now rewrite nan_ltb_l, Hp.
Qed.

(** ** Chords of length zero *)

Lemma cumsum_from_zero (l : list float) :
  Forall (fun x => x = 0) l ->
  Forall (fun x => x = 0) (np.cumsum_from 0 l).
Proof.
  induction l as [|x l IH]; intros H; simpl; [constructor|].
  inversion H; subst. constructor; [reflexivity|].
  change (0 + 0) with 0. now apply IH.
Qed.

Lemma cumsum_zero (l : list float) :
  Forall (fun x => x = 0) l -> Forall (fun x => x = 0) (np.cumsum l).
Proof.
  destruct l as [|x l]; intros H; simpl; [constructor|].
  inversion H; subst. constructor; [reflexivity|]. now apply cumsum_from_zero.
Qed.

Lemma last_Forall {A : Type} (P : A -> Prop) (l : list A) (d : A) :
  P d -> Forall P l -> P (last l d).
Proof.
  intros Hd H. induction H as [|x l Hx H IH]; [exact Hd|].
  destruct l; [exact Hx | exact IH].
Qed.

Lemma chord_length_parameterize_zero (points : list vec2) :
  (2 <= length points)%nat -> zero_chords points ->
  exists u0, chord_length_parameterize points = Ok u0 /\
             length u0 = length points /\ all_nan u0.
Proof.
  intros H2 Hz.
  destruct (chord_length_parameterize_total points H2) as [u0 [Hu Hlen]].
  exists u0. split; [exact Hu|]. split; [exact Hlen|].
  unfold chord_length_parameterize in Hu.
  assert (Hc : Forall (fun x => x = 0)
                 (np.cumsum (map np.norm (diffs points)))).
  { apply cumsum_zero. apply Forall_map. exact Hz. }
  destruct (np.cumsum (map np.norm (diffs points))) as [|c0 c] eqn:E;
    [discriminate|].
  injection Hu as <-.
  assert (Hl : last (c0 :: c) 0 = 0) by now apply last_Forall.
  change (all_nan (map (fun x => x / last (c0 :: c) 0) (0 :: c0 :: c))).
  rewrite Hl. unfold all_nan.
  change (0 :: c0 :: c) with ([0] ++ c0 :: c).
  rewrite map_app. apply Forall_app. split.
  - repeat constructor.
  - apply Forall_map. eapply Forall_impl; [|exact Hc].
    simpl. intros x ->. reflexivity.
Qed.

(** ** Short ranges *)

Lemma tangents_total (points : list vec2) (left right : option vec2) :
  (2 <= length points)%nat ->
  exists lt rt, tangents points left right = Ok (lt, rt).
Proof.
  intros H. unfold tangents, l_vecs, r_vecs.
  assert (H1 : exists p, getitem points 1 = Ok p).
  { destruct (getitem_nat points 1 ltac:(lia)) as [p [Hp _]]. eauto. }
  assert (H2 : exists p, getitem points (-2) = Ok p).
  { destruct (getitem_nat points (length points - 2) ltac:(lia)) as [p [Hp _]].
    exists p. rewrite <- Hp. unfold getitem. cbv zeta.
    change (-2 <? 0)%Z with true. cbv iota.
    destruct (Z.ltb_spec (Z.of_nat (length points - 2)) 0); [lia|].
    replace (-2 + Z.of_nat (length points))%Z
      with (Z.of_nat (length points - 2)) by lia.
    reflexivity. }
  destruct H1 as [p1 H1], H2 as [p2 H2]. rewrite H1, H2.
  destruct left, right; simpl; eauto.
Qed.

Lemma split_at_first_index {L : Libm} (fuel : nat) (points : list vec2)
    (max_err : float) (lt rt : vec2) :
  (2 <= length points)%nat ->
  subdivide (fun p l r => fit_bezier (S fuel) p max_err l r)
            points lt rt 0 = Raise TypeError.
Proof.
  intros H. unfold subdivide.
  change (Z.of_nat 0 - 1)%Z with (-1)%Z.
  change (Z.of_nat 0 + 1)%Z with (Z.of_nat 1).
  destruct (getitem_nat points 1 ltac:(lia)) as [b [Hb _]]. rewrite Hb.
  rewrite (getitem_last points (0, 0))
    by (destruct points; simpl in *; [lia | congruence]).
  destruct points as [|p0 points]; [simpl in H; lia|].
  reflexivity.
Qed.

(** On fewer than two points [fit_bezier] always raises: [IndexError] from
    [points[1]] or [points[-2]] when a tangent has to be estimated, and
    [TypeError] from [u /= u[-1]] when both tangents are given. *)
Theorem fit_bezier_short_range_raises {L : Libm} (fuel : nat) (points : list vec2)
    (max_err : float) (left right : option vec2) :
  (length points < 2)%nat ->
  fit_bezier (S fuel) points max_err left right =
  Raise (match left, right with
         | Some _, Some _ => TypeError
         | _, _ => IndexError
         end).
Proof.
  intros H. destruct points as [|p [|p' ps]]; simpl in H; try lia;
    destruct left, right; reflexivity.
Qed.

Lemma fit_bezier_short_range_raises_witness :
  (length [(1, 2)] < 2)%nat /\
  fit_bezier (L := rounded_pow) 1 [(1, 2)] 1 None None = Raise IndexError.
Proof.
  assert (H : (length [(1, 2)] < 2)%nat) by (simpl; lia).
  exact (conj H (fit_bezier_short_range_raises (L := rounded_pow) 0 [(1, 2)] 1 None None H)).
Defined.

(** On two points [fit_bezier] returns one curve, whatever [max_err] is:
    the inner control points lie a third of the chord length along the
    tangents, and a tangent that is not given is estimated as the zero
    vector. *)
Theorem fit_bezier_two_points {L : Libm} (fuel : nat) (p0 p1 : vec2) (max_err : float)
    (left right : option vec2) :
  fit_bezier (S fuel) [p0; p1] max_err left right =
  let lt := match left with Some t => t | None => (0, 0) end in
  let rt := match right with Some t => t | None => (0, 0) end in
  let dist := np.norm (np.sub p0 p1) / 3 in
  Ok [[p0; np.add p0 (np.mul lt dist); np.add p1 (np.mul rt dist); p1]].
Proof. destruct left, right; reflexivity. Qed.

(** When the loop of [fit_bezier] falls through with [split_point = 0],
    the left recursive call receives the single point [points[:1]] and the
    call raises [TypeError]. *)
Theorem split_at_first_index_raises {L : Libm} (fuel : nat) (points : list vec2)
    (max_err : float) (left right : option vec2) (lt rt : vec2) (n : nat) :
  tangents points left right = Ok (lt, rt) ->
  fit_loop points max_err lt rt = Ok (Failed 0, n) ->
  length points <> 2%nat ->
  fit_bezier (S (S fuel)) points max_err left right = Raise TypeError.
Proof.
  intros Ht Hf H2.
  rewrite (fit_bezier_after_loop _ _ _ _ _ _ _ _ _ Ht H2 Hf).
  apply split_at_first_index. now apply fit_loop_Ok in Hf.
Qed.

Lemma split_at_first_index_raises_witness :
  tangents coincident None None = Ok ((0, 0), (0, 0)) /\
  fit_loop (L := rounded_pow) coincident 1 (0, 0) (0, 0) = Ok (Failed 0, 32%nat) /\
  length coincident <> 2%nat /\
  fit_bezier (L := rounded_pow) 2 coincident 1 None None = Raise TypeError.
Proof.
  assert (Ht : tangents coincident None None = Ok ((0, 0), (0, 0)))
    by (vm_compute; reflexivity).
  assert (Hf : fit_loop (L := rounded_pow) coincident 1 (0, 0) (0, 0) = Ok (Failed 0, 32%nat))
    by (vm_compute; reflexivity).
  assert (Hl : length coincident <> 2%nat) by discriminate.
  exact (conj Ht (conj Hf (conj Hl
           (split_at_first_index_raises (L := rounded_pow) 0 coincident 1 None None
              (0, 0) (0, 0) 32 Ht Hf Hl)))).
Defined.

(** On three or more points whose chords all have length zero (repeated
    points, or differences whose squares underflow), [fit_bezier] raises:
    the parameterization is NaN throughout and no iteration of the loop
    passes the test [err < max_err], so [max_err ** 2] is evaluated.  When
    it overflows the call raises [OverflowError]; otherwise the second
    test fails as well in all 32 iterations, the split point is 0, and
    the call raises [TypeError]. *)
Theorem zero_length_range_raises {L : Libm} (fuel : nat) (points : list vec2)
    (max_err : float) (left right : option vec2) :
  (3 <= length points)%nat -> zero_chords points ->
  fit_bezier (S (S fuel)) points max_err left right =
  match float_pow_2 max_err with
  | Ok _ => Raise TypeError
  | _ => Raise OverflowError
  end.
Proof.
  intros H3 Hz.
  destruct (tangents_total points left right ltac:(lia)) as (lt & rt & Ht).
  destruct (chord_length_parameterize_zero points ltac:(lia) Hz)
    as (u0 & Hu & Hlen & Hnan).
  assert (Hne : points <> []) by (destruct points; simpl in *; [lia | congruence]).
  destruct (float_pow_2_cases max_err) as [[squared Hp] | Hp]; rewrite Hp.
  - assert (Hf : fit_loop points max_err lt rt = Ok (Failed 0, 32%nat)).
    { unfold fit_loop. rewrite Hu. simpl.
      exact (refine_nan 31 points max_err lt rt squared Hp u0 Hne Hlen Hnan). }
    rewrite (fit_bezier_after_loop _ _ _ _ _ _ _ _ _ Ht ltac:(lia) Hf).
    apply split_at_first_index. lia.
  - assert (Hf : fit_loop points max_err lt rt = Raise OverflowError).
    { unfold fit_loop. rewrite Hu. simpl.
      exact (refine_nan_raises 31 points max_err lt rt _ u0 Hp Hne Hlen Hnan). }
    simpl. rewrite Ht. simpl.
    replace (length points =? 2)%nat with false
      by (symmetry; apply Nat.eqb_neq; lia).
    now rewrite Hf.
Qed.

Lemma zero_length_range_raises_witness :
  (3 <= length repeated)%nat /\
  zero_chords repeated /\
  fit_bezier (L := rounded_pow) 2 repeated 0.5 None None = Raise TypeError /\
  fit_bezier (L := rounded_pow) 2 repeated huge None None
  = Raise OverflowError.
Proof.
  assert (Hl : (3 <= length repeated)%nat) by (simpl; lia).
  assert (Hz : zero_chords repeated) by (repeat constructor).
  exact (conj Hl (conj Hz (conj
           (zero_length_range_raises (L := rounded_pow) 0 repeated 0.5
              None None Hl Hz)
           (zero_length_range_raises (L := rounded_pow) 0 repeated huge
              None None Hl Hz)))).
Defined.

(** [newton_raphson_root_find] never repairs a NaN: when every parameter
    is NaN, so is every parameter after any number of
    reparameterizations. *)
Theorem nan_parameters_persist (k : nat) (points : list vec2) (lt rt : vec2)
    (u0 : list float) :
  all_nan u0 -> all_nan (parameterization k points lt rt u0).
Proof.
  intros H. induction k as [|k IH]; [exact H|].
  rewrite parameterization_succ. now apply newton_raphson_root_find_nan.
Qed.

Lemma nan_parameters_persist_witness :
  all_nan [nan; nan; nan] /\
  all_nan (parameterization 31 peak (1, 0) (-1, 0) [nan; nan; nan]).
Proof.
  assert (H : all_nan [nan; nan; nan]) by (repeat constructor).
  exact (conj H (nan_parameters_persist 31 peak (1, 0) (-1, 0) _ H)).
Defined.

(** The chord-length parameterization raises [TypeError] exactly on fewer
    than two points, and otherwise has one parameter per point. *)
Theorem chord_length_parameterize_cases (points : list vec2) :
  match chord_length_parameterize points with
  | Ok u => (2 <= length points)%nat /\ length u = length points
  | Raise e => e = TypeError /\ (length points < 2)%nat
  | OutOfFuel => False
  end.
Proof.
  destruct (chord_length_parameterize points) as [u|e|] eqn:E.
  - now apply chord_length_parameterize_Ok.
  - destruct (Nat.lt_ge_cases (length points) 2) as [H|H].
    + split; [|exact H].
      destruct points as [|p [|p' ps]]; simpl in H; try lia;
        inversion E; reflexivity.
    + destruct (chord_length_parameterize_total points H) as [u [Hu _]].
      congruence.
  - unfold chord_length_parameterize in E.
    destruct (np.cumsum _); discriminate.
Qed.

(** ** The weights of the tangent estimate *)

Lemma weights_cap (len_points : nat) :
  (12 <= len_points)%nat -> weights len_points = weights 12.
Proof.
  intros H. unfold weights.
  replace (Z.min 10 (Z.of_nat len_points - 2)) with 10%Z by lia.
  reflexivity.
Qed.

(** For three or more points there are [min(10, len(points) - 2)] weights
    of the tangent estimate; they add up to exactly 1 in index order, each
    is positive, and each is half the one before. *)
Theorem weights_sum_to_one (len_points : nat) :
  (3 <= len_points)%nat ->
  length (weights len_points) = Nat.min 10 (len_points - 2) /\
  fold_left PrimFloat.add (weights len_points) 0 = 1 /\
  Forall (fun w => (0 <? w) = true) (weights len_points) /\
  map (fun w => w / 2) (removelast (weights len_points))
  = tl (weights len_points).
Proof.
  intros H. destruct (le_lt_dec 12 len_points) as [H12|H12].
  - rewrite (weights_cap len_points H12).
    replace (Nat.min 10 (len_points - 2)) with 10%nat by lia.
    repeat split; try (vm_compute; reflexivity).
    vm_compute. repeat constructor.
  - assert (E : In len_points [3; 4; 5; 6; 7; 8; 9; 10; 11]%nat)
      by (simpl; lia).
    simpl in E.
    repeat (destruct E as [<- | E];
            [repeat split; try (vm_compute; reflexivity);
             vm_compute; repeat constructor|]).
    contradiction.
Qed.

Lemma weights_sum_to_one_witness :
  (3 <= 5)%nat /\
  length (weights 5) = Nat.min 10 (5 - 2) /\
  fold_left PrimFloat.add (weights 5) 0 = 1 /\
  Forall (fun w => (0 <? w) = true) (weights 5) /\
  map (fun w => w / 2) (removelast (weights 5)) = tl (weights 5).
Proof.
  assert (H : (3 <= 5)%nat) by lia.
  exact (conj H (weights_sum_to_one 5 H)).
Defined.

(** ** What the driver raises *)









(** ** Locality of the tangent estimates *)

Lemma getitem_app1 {A : Type} (pre rest : list A) (i : nat) :
  (i < length pre)%nat ->
  getitem (pre ++ rest) (Z.of_nat i) = getitem pre (Z.of_nat i).
Proof.
  intros H.
  destruct (getitem_nat pre i H) as [x [H1 H2]].
  destruct (getitem_nat (pre ++ rest) i) as [y [H3 H4]];
    [rewrite length_app; lia|].
  rewrite nth_error_app1 in H4 by exact H. congruence.
Qed.

Lemma getitem_neg {A : Type} (a : list A) (k : nat) :
  (0 < k <= length a)%nat ->
  getitem a (- Z.of_nat k) = getitem a (Z.of_nat (length a - k)).
Proof.
  intros H. unfold getitem. cbv zeta.
  destruct (Z.ltb_spec (- Z.of_nat k) 0); [|lia].
  destruct (Z.ltb_spec (Z.of_nat (length a - k)) 0); [lia|].
  replace (- Z.of_nat k + Z.of_nat (length a))%Z
    with (Z.of_nat (length a - k)) by lia.
  reflexivity.
Qed.

Lemma getitem_app2_neg {A : Type} (rest post : list A) (k : nat) :
  (0 < k <= length post)%nat ->
  getitem (rest ++ post) (- Z.of_nat k) = getitem post (- Z.of_nat k).
Proof.
  intros H. rewrite !getitem_neg by (rewrite ?length_app; lia).
  destruct (getitem_nat post (length post - k) ltac:(lia)) as [x [H1 H2]].
  destruct (getitem_nat (rest ++ post) (length (rest ++ post) - k))
    as [y [H3 H4]]; [rewrite length_app; lia|].
  rewrite nth_error_app2 in H4 by (rewrite length_app; lia).
  replace (length (rest ++ post) - k - length rest)%nat
    with (length post - k)%nat in H4 by (rewrite length_app; lia).
  congruence.
Qed.

Lemma firstn_skipn_app {A : Type} (pre rest : list A) (n : nat) :
  (n + 2 <= length pre)%nat ->
  firstn n (skipn 2 (pre ++ rest)) = firstn n (skipn 2 pre).
Proof.
  intros H. rewrite skipn_app.
  replace (2 - length pre)%nat with 0%nat by lia. simpl skipn at 2.
  rewrite firstn_app, length_skipn.
  replace (n - (length pre - 2))%nat with 0%nat by lia.
  simpl. apply app_nil_r.
Qed.

Lemma l_vecs_app (pre rest : list vec2) (n : nat) :
  (n + 2 <= length pre)%nat ->
  l_vecs (pre ++ rest) n = l_vecs pre n.
Proof.
  intros H. unfold l_vecs.
  pose proof (getitem_app1 pre rest 1 ltac:(lia)) as G.
  change (Z.of_nat 1) with 1%Z in G. rewrite G.
  now rewrite firstn_skipn_app.
Qed.

Lemma r_vecs_app (rest post : list vec2) (n : nat) :
  (n + 2 <= length post)%nat ->
  r_vecs (rest ++ post) n = r_vecs post n.
Proof.
  intros H. unfold r_vecs.
  pose proof (getitem_app2_neg rest post 2 ltac:(lia)) as G.
  change (- Z.of_nat 2)%Z with (-2)%Z in G. rewrite G.
  rewrite rev_app_distr, firstn_skipn_app by (rewrite length_rev; lia).
  reflexivity.
Qed.

Lemma tangents_of_ends (pre mid post : list vec2) (left right : option vec2) :
  length pre = 12%nat -> length post = 12%nat ->
  tangents (pre ++ mid ++ post) left right =
  (lt <- match left with
         | Some t => Ok t
         | None => v <- l_vecs pre 10 ;;
                   Ok (normalize (np.einsum_np_n v (weights 12)))
         end ;;
   rt <- match right with
         | Some t => Ok t
         | None => v <- r_vecs post 10 ;;
                   Ok (normalize (np.einsum_np_n v (weights 12)))
         end ;;
   Ok (lt, rt)).
Proof.
  intros Hpre Hpost. unfold tangents.
  rewrite (weights_cap (length (pre ++ mid ++ post)))
    by (rewrite !length_app; lia).
  change (length (weights 12)) with 10%nat.
  rewrite l_vecs_app by lia.
  rewrite (app_assoc pre), r_vecs_app by lia.
  reflexivity.
Qed.

(** The tangents of a call depend on the first twelve and the last twelve
    points only: two ranges of points that agree there have the same
    tangents. *)
Theorem estimated_tangents_are_local (pre mid mid' post : list vec2)
    (left right : option vec2) :
  length pre = 12%nat -> length post = 12%nat ->
  tangents (pre ++ mid ++ post) left right
  = tangents (pre ++ mid' ++ post) left right.
Proof.
  intros Hpre Hpost.
  now rewrite !tangents_of_ends by assumption.
Qed.

Lemma estimated_tangents_are_local_witness :
  length (repeat (1, 0) 12) = 12%nat /\
  length (repeat (0, 1) 12) = 12%nat /\
  tangents (repeat (1, 0) 12 ++ [] ++ repeat (0, 1) 12) None None
  = tangents (repeat (1, 0) 12 ++ [(5, 5)] ++ repeat (0, 1) 12) None None.
Proof.
  exact (conj eq_refl (conj eq_refl
           (estimated_tangents_are_local (repeat (1, 0) 12) [] [(5, 5)]
              (repeat (0, 1) 12) None None eq_refl eq_refl))).
Defined.

(** ** Padding for inference *)

Lemma pad_replicate_Some {A : Type} (x : list A) (left right : nat) :
  x <> [] ->
  exists a b, pad_replicate x left right
              = Some (repeat a left ++ x ++ repeat b right).
Proof. destruct x as [|a x]; [congruence|]. simpl. eauto. Qed.

Lemma next_multiple (size k : nat) :
  (0 < k)%nat ->
  let pad := ((1 + size / k) * k - size)%nat in
  (1 <= pad <= k)%nat /\ (size + pad = (1 + size / k) * k)%nat.
Proof.
  intros Hk. simpl.
  pose proof (Nat.div_mod_eq size k) as Hd.
  pose proof (Nat.mod_upper_bound size k ltac:(lia)) as Hm.
  nia.
Qed.

(** [inference_pad] on a non-empty row returns a padded row and a slice
    such that slicing the padded row gives the row back; the padded length
    is a multiple of [2 ** depth], and exceeds the length plus twice
    [VALID_PAD] by at least 1 and at most [2 ** depth]. *)
Theorem inference_pad_round_trip {A : Type} (depth : nat) (x : list A) :
  x <> [] ->
  exists y start stop,
    inference_pad depth x = Some (y, (start, stop)) /\
    getslice y start stop = x /\
    (length y mod 2 ^ depth = 0)%nat /\
    (length x + 2 * VALID_PAD < length y
     <= length x + 2 * VALID_PAD + 2 ^ depth)%nat.
Proof.
  intros Hx. unfold inference_pad. generalize VALID_PAD. intros V.
  destruct (pad_replicate_Some x V V Hx) as (a & b & ->).
  set (x1 := repeat a V ++ x ++ repeat b V).
  assert (Hl1 : length x1 = (V + length x + V)%nat)
    by (unfold x1; rewrite !length_app, !repeat_length; lia).
  assert (Hk : (0 < 2 ^ depth)%nat)
    by (apply Nat.neq_0_lt_0, Nat.pow_nonzero; lia).
  destruct (next_multiple (length x1) (2 ^ depth) Hk) as [Hp Hs].
  cbv zeta. set (pad := ((1 + length x1 / 2 ^ depth) * 2 ^ depth - length x1)%nat) in *.
  assert (Hne : x1 <> []).
  { intros E. apply (f_equal (@length A)) in E. rewrite Hl1 in E.
    destruct x; simpl in *; [congruence | lia]. }
  destruct (pad_replicate_Some x1 0 pad Hne) as (a' & b' & ->).
  simpl repeat. simpl app.
  eexists _, _, _. split; [reflexivity|].
  assert (Hl2 : length (x1 ++ repeat b' pad) = (length x1 + pad)%nat)
    by (rewrite length_app, repeat_length; lia).
  split; [|split].
  - unfold getslice. rewrite Hl2, Hl1.
    destruct (Z.ltb_spec (- Z.of_nat (V + pad)) 0); [|lia].
    replace (Z.to_nat (Z.max 0 (- Z.of_nat (V + pad)
                                + Z.of_nat (V + length x + V + pad))) - V)%nat
      with (length x) by lia.
    unfold x1. rewrite <- !app_assoc.
    rewrite skipn_app, repeat_length, Nat.sub_diag, skipn_all2
      by (rewrite repeat_length; lia).
    simpl. rewrite firstn_app, Nat.sub_diag, firstn_all. simpl.
    apply app_nil_r.
  - rewrite Hl2, Hs. apply Nat.Div0.mod_mul.
  - rewrite Hl2, Hl1. lia.
Qed.

Lemma inference_pad_round_trip_witness :
  [1; 2; 3] <> [] /\
  exists y start stop,
    inference_pad 4 [1; 2; 3] = Some (y, (start, stop)) /\
    getslice y start stop = [1; 2; 3] /\
    (length y mod 2 ^ 4 = 0)%nat /\
    (length [1; 2; 3] + 2 * VALID_PAD < length y
     <= length [1; 2; 3] + 2 * VALID_PAD + 2 ^ 4)%nat.
Proof.
  assert (H : [1; 2; 3] <> []) by discriminate.
  exact (conj H (inference_pad_round_trip 4 [1; 2; 3] H)).
Defined.
